(** * The decorator layer of the ICT trading agent

    A shallow embedding of [src/utils/exceptions.py] and
    [src/utils/decorators.py]: the exception hierarchy, and the five
    decorators ([monitor_performance], [retry], their [async] twins,
    [cache_result] and [validate_data]) as state-passing functions over an
    explicit world (clock, the module-level [_cache], the log and the
    state the wrapped operations work on). *)

From Stdlib Require Import ZArith QArith Qpower List String Bool Lia Lqa.
From Stdlib Require Import Permutation Sorted OrdersEx DecimalString.
Import ListNotations.

Local Open Scope string_scope.
Local Open Scope list_scope.

(** ** src/utils/exceptions.py *)

Module Exceptions.

(** The classes of [exceptions.py], below the built-in classes that the
    decorators meet: [Exception] (what every [except Exception] clause
    catches), [BaseException] with two classes that are not under
    [Exception], and the built-in errors raised by the decorators and by
    the libraries they call. *)
Inductive ExcClass : Set :=
  | BaseException | Exception
  | KeyboardInterrupt | CancelledError
  | TypeError | ValueError | KeyError
  | ICTTradingError
  | DataError | DataValidationError | DataSourceError | InsufficientDataError
  | ICTAnalysisError | PatternNotFoundError | InvalidPatternError
  | MLError | ModelNotFoundError | MLTrainingError | FeatureEngineeringError
  | TradingError | RiskManagementError | ExecutionError | PositionSizingError
  | BacktestError | PerformanceCalculationError
  | ConfigurationError
  | ValidationError.

Scheme Equality for ExcClass.

(** The class named between the parentheses of each [class] statement. *)
Definition base (c : ExcClass) : option ExcClass :=
  match c with
  | BaseException => None
  | Exception => Some BaseException
  | KeyboardInterrupt => Some BaseException
  | CancelledError => Some BaseException
  | TypeError => Some Exception
  | ValueError => Some Exception
  | KeyError => Some Exception
  | ICTTradingError => Some Exception
  | DataError => Some ICTTradingError
  | DataValidationError => Some DataError
  | DataSourceError => Some DataError
  | InsufficientDataError => Some DataError
  | ICTAnalysisError => Some ICTTradingError
  | PatternNotFoundError => Some ICTAnalysisError
  | InvalidPatternError => Some ICTAnalysisError
  | MLError => Some ICTTradingError
  | ModelNotFoundError => Some MLError
  | MLTrainingError => Some MLError
  | FeatureEngineeringError => Some MLError
  | TradingError => Some ICTTradingError
  | RiskManagementError => Some TradingError
  | ExecutionError => Some TradingError
  | PositionSizingError => Some TradingError
  | BacktestError => Some ICTTradingError
  | PerformanceCalculationError => Some BacktestError
  | ConfigurationError => Some ICTTradingError
  | ValidationError => Some ICTTradingError
  end.

Fixpoint subclass_within (fuel : nat) (c d : ExcClass) : bool :=
  ExcClass_beq c d ||
  match fuel with
  | O => false
  | S fuel' =>
      match base c with
      | Some p => subclass_within fuel' p d
      | None => false
      end
  end.

(** [issubclass c d]: the longest chain of bases has five classes. *)
Definition issubclass (c d : ExcClass) : bool := subclass_within 4 c d.

(** The classes declared in [exceptions.py], in the order of the file. *)
Definition declared : list ExcClass :=
  [ ICTTradingError;
    DataError; DataValidationError; DataSourceError; InsufficientDataError;
    ICTAnalysisError; PatternNotFoundError; InvalidPatternError;
    MLError; ModelNotFoundError; MLTrainingError; FeatureEngineeringError;
    TradingError; RiskManagementError; ExecutionError; PositionSizingError;
    BacktestError; PerformanceCalculationError;
    ConfigurationError; ValidationError ].

Definition has_base (p c : ExcClass) : bool :=
  match base c with
  | Some q => ExcClass_beq q p
  | None => false
  end.

(** A leaf error kind: a class of the file, other than its root, that no
    class of the file derives from. *)
Definition is_leaf_kind (c : ExcClass) : bool :=
  existsb (ExcClass_beq c) declared
  && negb (ExcClass_beq c ICTTradingError)
  && negb (existsb (has_base c) declared).

(** What an exception object carries besides its class: the text given
    to the constructor, or the f-string of the decorator that raised it,
    kept as its template and the values interpolated in it. *)
Inductive ExcArgs : Type :=
  | Text (s : string)
  | RowCount (actual required : Z)
      (* f"DataFrame has {len(df)} rows, need at least {min_rows}" *)
  | MissingColumns (missing_cols : list string)
      (* f"Missing required columns: {missing_cols}" *)
  | NotAnException
      (* raise None: exceptions must derive from BaseException *)
  | NegativeSleep
      (* time.sleep: sleep length must be non-negative *)
  | MissingKey (key : string)
      (* KeyError(key) of a cache lookup *)
  | ValueTooLarge.
      (* the cache's ValueError for a value larger than maxsize *)

Record Exc : Type := { exc_class : ExcClass; exc_args : ExcArgs }.

Definition isinstance (e : Exc) (c : ExcClass) : bool :=
  issubclass (exc_class e) c.

End Exceptions.

Import Exceptions.

(** What a call gives back: a value, or an exception on its way up. *)
Inductive Result (A : Type) : Type :=
  | Return (a : A)
  | Raised (e : Exc).

Arguments Return {A} a.
Arguments Raised {A} e.

(** ** Rational time *)

(** Seconds, delays and timestamps are rationals: every value a Python
    [float] or [int] holds is one, and the arithmetic of the decorators
    ([t - start], [delay * backoff], [time + ttl]) is taken exactly. *)
Definition Qltb (x y : Q) : bool := negb (Qle_bool y x).

(** ** cachetools.TTLCache, as [decorators.py] uses it *)

Module TTLCache.
Section WithValue.
Context {Value : Type}.

(** One entry: the key, the stored value and the time it expires. *)
Record Link : Type := { key : string; value : Value; expires : Q }.

(** The entries, least recently used first. *)
Definition t : Type := list Link.

Definition has_key (k : string) (l : Link) : bool := String.eqb (key l) k.

Definition lookup (c : t) (k : string) : option Link := find (has_key k) c.

Definition remove (c : t) (k : string) : t :=
  filter (fun l => negb (has_key k l)) c.

Definition key_error (k : string) : Exc :=
  {| exc_class := KeyError; exc_args := MissingKey k |}.

(** [key in cache]: present and not yet expired; nothing is moved. *)
Definition contains (c : t) (k : string) (time : Q) : bool :=
  match lookup c k with
  | Some l => Qltb time (expires l)
  | None => false
  end.

(** [cache[key]]: the entry becomes the most recently used one; an
    absent or expired key is a [KeyError]. *)
Definition getitem (c : t) (k : string) (time : Q) : Result Value * t :=
  match lookup c k with
  | Some l =>
      let c' := remove c k ++ [l] in
      if Qltb time (expires l) then (Return (value l), c')
      else (Raised (key_error k), c')
  | None => (Raised (key_error k), c)
  end.

(** [expire(time)]: drop the entries whose time has come. *)
Definition expire (c : t) (time : Q) : t :=
  filter (fun l => Qltb time (expires l)) c.

(** [while currsize + 1 > maxsize: popitem()], every entry of size 1:
    the least recently used entries go first. *)
Fixpoint evict (maxsize : Z) (c : t) : t :=
  match c with
  | [] => []
  | _ :: c' =>
      if (maxsize <? Z.of_nat (List.length c) + 1)%Z then evict maxsize c'
      else c
  end.

(** [cache[key] = value] at [time]: expired entries are dropped, room
    is made for a new key, and the entry is (re)inserted as the most
    recently used one, expiring [ttl] later. *)
Definition setitem (maxsize : Z) (ttl : Q) (c : t) (k : string) (v : Value)
    (time : Q) : Result unit * t :=
  let c1 := expire c time in
  if (maxsize <? 1)%Z then
    (Raised {| exc_class := ValueError; exc_args := ValueTooLarge |}, c1)
  else
    let c2 := match lookup c1 k with
              | Some _ => c1
              | None => evict maxsize c1
              end in
    (Return tt,
     remove c2 k ++ [{| key := k; value := v; expires := time + ttl |}]).

End WithValue.

Arguments Link Value : clear implicits.
Arguments t Value : clear implicits.

End TTLCache.

(** ** What the decorators ask of the Python runtime *)

(** A tabular argument, as [validate_data] reads it: [len(df)] and
    [df.columns]. *)
Record DataFrame : Type := { df_len : Z; df_columns : list string }.

(** [**kwargs]: the named arguments in the order of the call; Python
    refuses a call that repeats a name. *)
Definition Kwargs (Value : Type) : Type := list (string * Value).

(** The library functions and built-ins that [decorators.py] applies to
    the objects it is handed. They are not code of the repository and stay
    abstract:
    - [as_frame v] is [Some df] when [hasattr(v, 'columns') and
      hasattr(v, 'index')], with the length and columns of [v];
    - [str_args] is [str] of the tuple of positional arguments;
    - [str_items] is [str] of a list of [(name, value)] pairs;
    - [value_lt] is [<] on argument values;
    - [json_dumps] is [json.dumps(d, sort_keys=True)] of a dict of strings,
      given as its items;
    - [md5_hexdigest s] is [hashlib.md5(s.encode()).hexdigest()]. *)
Class Runtime (Value : Type) : Type := {
  as_frame : Value -> option DataFrame;
  str_args : list Value -> string;
  str_items : list (string * Value) -> string;
  value_lt : Value -> Value -> bool;
  json_dumps : list (string * string) -> string;
  md5_hexdigest : string -> string
}.

(** [<] on [str]: by code points. *)
Definition str_ltb (a b : string) : bool :=
  match String_as_OT.compare a b with
  | Lt => true
  | _ => false
  end.

(** The levels the decorators log at. *)
Inductive Level : Set := DEBUG | WARNING | ERROR.

(** The f-strings handed to the logger, each kept as its template and the
    values interpolated in it. *)
Inductive LogRecord : Type :=
  | Executed (name : string) (execution_time : Q)
      (* f"{name} executed in {execution_time:.3f}s" *)
  | FailedAfter (name : string) (execution_time : Q) (e : Exc)
      (* f"{name} failed after {execution_time:.3f}s: {e}" *)
  | AttemptFailed (name : string) (attempt : Z) (e : Exc) (current_delay : Q)
      (* f"{name} attempt {attempt + 1} failed: {e}. Retrying in {current_delay}s" *)
  | AttemptsExhausted (name : string) (max_attempts : Z) (e : Exc)
      (* f"{name} failed after {max_attempts} attempts: {e}" *)
  | CacheHit (name : string)
      (* f"Cache hit for {name}" *)
  | CachedResult (name : string).
      (* f"Cached result for {name}" *)

(** [_cache = TTLCache(maxsize=1000, ttl=300)] *)
Definition _cache_maxsize : Z := 1000.
Definition _cache_ttl : Q := 300.

Section Decorators.
Context {Value State : Type} `{Runtime Value}.

(** What a run leaves behind, in order: the invocations of the operations
    underneath the decorators with what they gave, the waits, and the
    records logged. *)
Inductive Event : Type :=
  | EvCall (name : string) (args : list Value) (kwargs : Kwargs Value)
      (out : Result Value)
  | EvSleep (seconds : Q)
  | EvAsyncSleep (seconds : Q)
  | EvLog (level : Level) (record : LogRecord).

(** The world the decorators run in: the clock, the links of the
    module-level [_cache], the events so far, and the state the wrapped
    operations read and write. *)
Record World : Type := {
  now : Q;
  _cache : TTLCache.t Value;
  events : list Event;
  state : State
}.

(** Computations: they read and write the world, and return or raise. *)
Definition M (A : Type) : Type := World -> Result A * World.

Definition ret {A : Type} (a : A) : M A := fun w => (Return a, w).

Definition raise {A : Type} (e : Exc) : M A := fun w => (Raised e, w).

Definition bind {A B : Type} (c : M A) (k : A -> M B) : M B :=
  fun w =>
    match c w with
    | (Return a, w') => k a w'
    | (Raised e, w') => (Raised e, w')
    end.

Local Notation "x <- c1 ;; c2" := (bind c1 (fun x => c2))
  (at level 61, c1 at next level, right associativity).
Local Notation "c1 ;; c2" := (bind c1 (fun _ => c2))
  (at level 61, right associativity).

(** [try: body  except Exception as e: handler]: what is not an
    [Exception] passes through. *)
Definition try_except {A : Type} (body : M A) (handler : Exc -> M A) : M A :=
  fun w =>
    match body w with
    | (Return a, w') => (Return a, w')
    | (Raised e, w') =>
        if isinstance e Exception then handler e w' else (Raised e, w')
    end.

Definition emit (ev : Event) : M unit :=
  fun w =>
    (Return tt,
     {| now := now w; _cache := _cache w;
        events := events w ++ [ev]; state := state w |}).

Definition logger (level : Level) (record : LogRecord) : M unit :=
  emit (EvLog level record).

Definition time_time : M Q := fun w => (Return (now w), w).

Definition advance (seconds : Q) (w : World) : World :=
  {| now := now w + seconds; _cache := _cache w;
     events := events w; state := state w |}.

(** [time.sleep(seconds)]: a negative length is a [ValueError]. *)
Definition time_sleep (seconds : Q) : M unit :=
  fun w =>
    if Qltb seconds 0 then
      (Raised {| exc_class := ValueError; exc_args := NegativeSleep |}, w)
    else emit (EvSleep seconds) (advance seconds w).

(** [await asyncio.sleep(seconds)]: a length of zero or less only yields. *)
Definition asyncio_sleep (seconds : Q) : M unit :=
  fun w =>
    emit (EvAsyncSleep seconds)
         (advance (if Qltb 0 seconds then seconds else 0) w).

(** An operation underneath the decorators: from the arguments, the state
    and the time of the call, what it gives, the state it leaves and the
    time it took. *)
Record Operation : Type := {
  op_name : string;
  op_body : list Value -> Kwargs Value -> State -> Q ->
            Result Value * State * Q
}.

(** What a decorator takes and gives: a function with its [__name__]. *)
Record Callable : Type := {
  func_name : string;
  call : list Value -> Kwargs Value -> M Value
}.

(** Calling an operation: the world moves on and the call is recorded. *)
Definition operation (op : Operation) : Callable :=
  {| func_name := op_name op;
     call := fun args kwargs w =>
       let r := op_body op args kwargs (state w) (now w) in
       (fst (fst r),
        {| now := now w + snd r; _cache := _cache w;
           events := events w ++ [EvCall (op_name op) args kwargs (fst (fst r))];
           state := snd (fst r) |}) |}.

(** *** monitor_performance *)

Definition monitor_performance (func : Callable) : Callable :=
  {| func_name := func_name func;
     call := fun args kwargs =>
       start_time <- time_time ;;
       try_except
         (result <- call func args kwargs ;;
          end_time <- time_time ;;
          logger DEBUG (Executed (func_name func) (end_time - start_time)) ;;
          ret result)
         (fun e =>
          end_time <- time_time ;;
          logger ERROR (FailedAfter (func_name func) (end_time - start_time) e) ;;
          raise e) |}.

(** The [async] twin: [await func(...)] where the other calls [func]. *)
Definition monitor_performance_async (func : Callable) : Callable :=
  {| func_name := func_name func;
     call := fun args kwargs =>
       start_time <- time_time ;;
       try_except
         (result <- call func args kwargs ;;
          end_time <- time_time ;;
          logger DEBUG (Executed (func_name func) (end_time - start_time)) ;;
          ret result)
         (fun e =>
          end_time <- time_time ;;
          logger ERROR (FailedAfter (func_name func) (end_time - start_time) e) ;;
          raise e) |}.

(** *** retry *)

(** [range(n)] *)
Definition range (n : Z) : list Z := map Z.of_nat (seq 0 (Z.to_nat n)).

(** [raise last_exception]: raising [None] is a [TypeError]. *)
Definition raise_last (last_exception : option Exc) : M Value :=
  match last_exception with
  | Some e => raise e
  | None => raise {| exc_class := TypeError; exc_args := NotAnException |}
  end.

(** The [for attempt in ...] loop of [retry] and of [retry_async], over
    the attempts still to make, with the two variables it updates; [sleep]
    is [time.sleep] in the one and [await asyncio.sleep] in the other. *)
Fixpoint retry_loop (sleep : Q -> M unit) (func : Callable)
    (args : list Value) (kwargs : Kwargs Value)
    (max_attempts : Z) (backoff : Q)
    (attempts : list Z) (current_delay : Q) (last_exception : option Exc)
    {struct attempts} : M Value :=
  match attempts with
  | [] => raise_last last_exception
  | attempt :: rest =>
      fun w =>
        match call func args kwargs w with
        | (Return result, w') => (Return result, w')
        | (Raised e, w') =>
            if isinstance e Exception then
              if (attempt <? max_attempts - 1)%Z then
                (logger WARNING
                   (AttemptFailed (func_name func) (attempt + 1) e current_delay) ;;
                 sleep current_delay ;;
                 retry_loop sleep func args kwargs max_attempts backoff
                   rest (current_delay * backoff) (Some e)) w'
              else
                (logger ERROR
                   (AttemptsExhausted (func_name func) max_attempts e) ;;
                 retry_loop sleep func args kwargs max_attempts backoff
                   rest current_delay (Some e)) w'
            else (Raised e, w')
        end
  end.

Definition retry (max_attempts : Z) (delay backoff : Q) (func : Callable)
    : Callable :=
  {| func_name := func_name func;
     call := fun args kwargs =>
       retry_loop time_sleep func args kwargs max_attempts backoff
         (range max_attempts) delay None |}.

Definition retry_async (max_attempts : Z) (delay backoff : Q)
    (func : Callable) : Callable :=
  {| func_name := func_name func;
     call := fun args kwargs =>
       retry_loop asyncio_sleep func args kwargs max_attempts backoff
         (range max_attempts) delay None |}.

(** *** cache_result *)

(** [<] on the [(name, value)] pairs of [kwargs.items()]: the names
    decide, and the values only between two pairs of one name. *)
Definition item_lt (x y : string * Value) : bool :=
  if String.eqb (fst x) (fst y) then value_lt (snd x) (snd y)
  else str_ltb (fst x) (fst y).

(** One step of the stable insertion sort behind [sorted]: [x] goes in
    front of the first item that it is less than. *)
Fixpoint insort (x : string * Value) (l : list (string * Value))
    : list (string * Value) :=
  match l with
  | [] => [x]
  | y :: l' => if item_lt x y then x :: y :: l' else y :: insort x l'
  end.

(** [sorted(items)] *)
Definition sorted (items : list (string * Value)) : list (string * Value) :=
  fold_left (fun acc x => insort x acc) items [].

(** The [cache_key] of a call, from [cache_data]. *)
Definition cache_key (func : Callable) (args : list Value)
    (kwargs : Kwargs Value) : string :=
  md5_hexdigest
    (json_dumps [ ("func", func_name func);
                  ("args", str_args args);
                  ("kwargs", str_items (sorted kwargs)) ]).

Definition set_cache (c : TTLCache.t Value) (w : World) : World :=
  {| now := now w; _cache := c; events := events w; state := state w |}.

(** [cache_key in _cache] *)
Definition cache_contains (k : string) : M bool :=
  fun w => (Return (TTLCache.contains (_cache w) k (now w)), w).

(** [_cache[cache_key]] *)
Definition cache_getitem (k : string) : M Value :=
  fun w =>
    let r := TTLCache.getitem (_cache w) k (now w) in
    (fst r, set_cache (snd r) w).

(** [_cache[cache_key] = result] *)
Definition cache_setitem (k : string) (v : Value) : M unit :=
  fun w =>
    let r := TTLCache.setitem _cache_maxsize _cache_ttl (_cache w) k v (now w) in
    (fst r, set_cache (snd r) w).

(** [ttl_seconds] is a parameter of the decorator, and its body never
    reads it. *)
Definition cache_result (ttl_seconds : Z) (func : Callable) : Callable :=
  {| func_name := func_name func;
     call := fun args kwargs =>
       let cache_key := cache_key func args kwargs in
       hit <- cache_contains cache_key ;;
       if (hit : bool) then
         logger DEBUG (CacheHit (func_name func)) ;;
         cache_getitem cache_key
       else
         result <- call func args kwargs ;;
         cache_setitem cache_key result ;;
         logger DEBUG (CachedResult (func_name func)) ;;
         ret result |}.

(** *** validate_data *)

(** The first of the values that is a table. *)
Fixpoint find_frame (values : list Value) : option DataFrame :=
  match values with
  | [] => None
  | v :: rest =>
      match as_frame v with
      | Some df => Some df
      | None => find_frame rest
      end
  end.

(** [col in df.columns] *)
Definition has_column (df : DataFrame) (col : string) : bool :=
  existsb (String.eqb col) (df_columns df).

Definition value_error {A : Type} (a : ExcArgs) : M A :=
  raise {| exc_class := ValueError; exc_args := a |}.

(** The two loops that look for [df]: through [args], then through
    [kwargs.values()]. *)
Definition locate_frame (args : list Value) (kwargs : Kwargs Value)
    : option DataFrame :=
  match find_frame args with
  | Some df => Some df
  | None => find_frame (map snd kwargs)
  end.

Definition validate_data (required_columns : option (list string))
    (min_rows : Z) (func : Callable) : Callable :=
  {| func_name := func_name func;
     call := fun args kwargs =>
       match locate_frame args kwargs with
       | Some df =>
           if (df_len df <? min_rows)%Z then
             value_error (RowCount (df_len df) min_rows)
           else
             match required_columns with
             | Some ((_ :: _) as required_columns) =>
                 let missing_cols :=
                   filter (fun col => negb (has_column df col))
                          required_columns in
                 match missing_cols with
                 | _ :: _ => value_error (MissingColumns missing_cols)
                 | [] => call func args kwargs
                 end
             | _ => call func args kwargs
             end
       | None => call func args kwargs
       end |}.

(** *** Reading a run *)

(** What the invocations of the operations gave, in order. *)
Definition call_outcomes (tr : list Event) : list (Result Value) :=
  flat_map (fun ev => match ev with
                      | EvCall _ _ _ out => [out]
                      | _ => []
                      end) tr.

(** The invocations and the waits of a run, in order: [None] for an
    invocation, [Some d] for a wait of [d] seconds. *)
Definition schedule (tr : list Event) : list (option Q) :=
  flat_map (fun ev => match ev with
                      | EvCall _ _ _ _ => [None]
                      | EvSleep d => [Some d]
                      | EvAsyncSleep d => [Some d]
                      | EvLog _ _ => []
                      end) tr.

(** The records logged, in order. *)
Definition log_records (tr : list Event) : list (Level * LogRecord) :=
  flat_map (fun ev => match ev with
                      | EvLog level record => [(level, record)]
                      | _ => []
                      end) tr.

(** An operation that raises an error whenever it is invoked. *)
Definition always_fails (op : Operation) : Prop :=
  forall args kwargs s t,
    exists e, fst (fst (op_body op args kwargs s t)) = Raised e
              /\ isinstance e Exception = true.

End Decorators.

Arguments Event Value : clear implicits.
Arguments World Value State : clear implicits.
Arguments M Value State A : clear implicits.
Arguments Operation Value State : clear implicits.
Arguments Callable Value State : clear implicits.

(** [current_delay] after [j] rounds of [current_delay *= backoff]. *)
Definition backoff_delay (delay backoff : Q) (j : nat) : Q :=
  Nat.iter j (fun current_delay => current_delay * backoff)%Q delay.

(** [m] failed attempts, each followed by its wait, and a last attempt. *)
Fixpoint backoff_schedule (delay backoff : Q) (m : nat) : list (option Q) :=
  match m with
  | O => [None]
  | S m' => None :: Some delay :: backoff_schedule (delay * backoff) backoff m'
  end.

(** The waits of a schedule, in order. *)
Definition waits (sched : list (option Q)) : list Q :=
  flat_map (fun step => match step with
                        | Some d => [d]
                        | None => []
                        end) sched.

(** What a retry-wrapped call over an operation that keeps failing
    leaves, from the world [w] it started in: [n] invocations with a wait
    between each two, [n - 1] waits in all, the wait before attempt [k]
    being [d * b ^ (k - 2)]; and with [n = 1] the clock moves by the time
    the one invocation took, and no more. *)
Definition backoff_run {Value State : Type} (op : Operation Value State)
    (args : list Value) (kwargs : Kwargs Value) (n : Z) (d b : Q)
    (w : World Value State) (run : Result Value * World Value State)
    : Prop :=
  exists tr,
    events (snd run) = events w ++ tr
    /\ List.length (call_outcomes tr) = Z.to_nat n
    /\ schedule tr = backoff_schedule d b (Z.to_nat n - 1)
    /\ List.length (waits (schedule tr)) = (Z.to_nat n - 1)%nat
    /\ (forall k : Z, (2 <= k <= n)%Z ->
          exists q, nth_error (waits (schedule tr)) (Z.to_nat (k - 2)) = Some q
                    /\ (q == d * b ^ (k - 2))%Q)
    /\ (n = 1%Z ->
          waits (schedule tr) = []
          /\ now (snd run)
             = (now w + snd (op_body op args kwargs (state w) (now w)))%Q).

(** ** A small runtime to run the decorators on *)

Module Sample.

Inductive PyValue : Type :=
  | PyInt (z : Z)
  | PyStr (s : string)
  | PyFrame (df : DataFrame).

Definition repr (v : PyValue) : string :=
  match v with
  | PyInt z => NilZero.string_of_int (Z.to_int z)
  | PyStr s => ("'" ++ s ++ "'")%string
  | PyFrame _ => "<DataFrame>"
  end.

Definition lt (a b : PyValue) : bool :=
  match a, b with
  | PyInt x, PyInt y => (x <? y)%Z
  | PyStr x, PyStr y => str_ltb x y
  | _, _ => false
  end.

(** The digest is a stand-in that keeps its argument: the runs below do
    not depend on what [md5] computes. *)
#[global] Instance runtime : Runtime PyValue := {|
  as_frame v := match v with PyFrame df => Some df | _ => None end;
  str_args args := ("(" ++ String.concat ", " (map repr args) ++ ")")%string;
  str_items items :=
    ("[" ++ String.concat ", "
              (map (fun kv => "('" ++ fst kv ++ "', " ++ repr (snd kv) ++ ")")
                   items) ++ "]")%string;
  value_lt := lt;
  json_dumps items :=
    ("{" ++ String.concat ", "
              (map (fun kv => fst kv ++ ": " ++ snd kv) items) ++ "}")%string;
  md5_hexdigest s := s
|}.

(** The operations count their invocations in the state. *)
Definition boom : Exc := {| exc_class := ValueError; exc_args := Text "boom" |}.

(** Fails on every invocation, in one second. *)
Definition failing : Operation PyValue nat :=
  {| op_name := "fetch";
     op_body := fun _ _ s _ => (Raised boom, S s, 1%Q) |}.

(** Gives the number of invocations so far, in one second. *)
Definition counting : Operation PyValue nat :=
  {| op_name := "fetch";
     op_body := fun _ _ s _ => (Return (PyInt (Z.of_nat s)), S s, 1%Q) |}.

(** Another function of the same name. *)
Definition other : Operation PyValue nat :=
  {| op_name := "fetch";
     op_body := fun _ _ s _ => (Return (PyStr "other"), S s, 1%Q) |}.

(** Interrupted on every invocation. *)
Definition interrupted : Operation PyValue nat :=
  {| op_name := "fetch";
     op_body := fun _ _ s _ =>
       (Raised {| exc_class := KeyboardInterrupt; exc_args := Text "" |},
        S s, 1%Q) |}.

(** A table of three rows with the columns A and B. *)
Definition table : PyValue :=
  PyFrame {| df_len := 3; df_columns := ["A"; "B"] |}.

(** The world at start-up: time zero, an empty cache, nothing logged. *)
Definition start : World PyValue nat :=
  {| now := 0; _cache := []; events := []; state := O |}.

End Sample.

(** ** More readings of a run, and more to run *)


(** An invocation that raised an error. *)
Definition failed_attempt {Value : Type} (out : Result Value) : Prop :=
  exists e, out = Raised e /\ isinstance e Exception = true.

(** The module-level cache in order: no key twice, and no more entries
    than [maxsize]. *)
Definition cache_within_bounds {Value : Type} (c : TTLCache.t Value) : Prop :=
  NoDup (map (@TTLCache.key Value) c)
  /\ (Z.of_nat (List.length c) <= _cache_maxsize)%Z.

(** An event of a run of [retry_async] as the event that [retry] leaves
    in its place: a wait is a wait. *)
Definition as_blocking {Value : Type} (ev : Event Value) : Event Value :=
  match ev with
  | EvAsyncSleep seconds => EvSleep seconds
  | _ => ev
  end.

(** Two runs that differ in the kind of their waits only. *)
Definition same_but_for_the_waits {Value State : Type}
    (run run_async : Result Value * World Value State) : Prop :=
  fst run = fst run_async
  /\ now (snd run) = now (snd run_async)
  /\ _cache (snd run) = _cache (snd run_async)
  /\ state (snd run) = state (snd run_async)
  /\ map as_blocking (events (snd run))
     = map as_blocking (events (snd run_async)).

(** The categories: the classes of the file that derive from its root
    directly. *)
Definition categories : list ExcClass :=
  filter (has_base ICTTradingError) declared.

(** ** src/config/settings.py: get_logger *)

Module Logging.

(** A [StreamHandler] with the format of its formatter. *)
Record Handler : Type := { handler_format : string }.

(** What [get_logger] reads and writes of a logger. *)
Record Logger : Type := { handlers : list Handler; level : Z }.

(** The loggers of the [logging] module by name: [getLogger] gives the
    same logger for the same name, and the root logger for no name and
    for its own name. *)
Definition Registry : Type := list (string * Logger).

Definition canonical (name : string) : string :=
  if String.eqb name "" then "root" else name.

Definition lookup (reg : Registry) (key : string) : option Logger :=
  option_map snd (find (fun entry => String.eqb (fst entry) key) reg).

Definition update (reg : Registry) (key : string) (f : Logger -> Logger)
    : Registry :=
  map (fun entry => if String.eqb (fst entry) key
                    then (fst entry, f (snd entry)) else entry) reg.

(** [logging.getLogger(name)]: a logger not met before is created, with
    no handler and no level of its own ([NOTSET]). *)
Definition getLogger (name : string) (reg : Registry) : string * Registry :=
  let key := canonical name in
  match lookup reg key with
  | Some _ => (key, reg)
  | None => (key, reg ++ [(key, {| handlers := []; level := 0 |})])
  end.

(** [logger.handlers] *)
Definition handlers_of (reg : Registry) (logger : string) : list Handler :=
  match lookup reg logger with
  | Some l => handlers l
  | None => []
  end.

(** [logger.level] *)
Definition level_of (reg : Registry) (logger : string) : Z :=
  match lookup reg logger with
  | Some l => level l
  | None => 0
  end.

(** [logger.addHandler(handler)], the handler being a new one. *)
Definition addHandler (logger : string) (h : Handler) (reg : Registry)
    : Registry :=
  update reg logger
    (fun l => {| handlers := handlers l ++ [h]; level := level l |}).

(** [logger.setLevel(level)] *)
Definition setLevel (logger : string) (lvl : Z) (reg : Registry) : Registry :=
  update reg logger (fun l => {| handlers := handlers l; level := lvl |}).

Definition log_format : string :=
  "%(asctime)s - %(name)s - %(levelname)s - %(message)s".

Section GetLogger.

(** [LOG_LEVEL] is [config.LOG_LEVEL], read from the environment when the
    settings are loaded; [named_level s] is what
    [logger.setLevel(getattr(logging, s))] sets, or the exception that
    [getattr] or [setLevel] raises for [s]. *)
Variable LOG_LEVEL : string.
Variable named_level : string -> Result Z.

(** The logger is given by its name in the registry. *)
Definition get_logger (name : string) (reg : Registry)
    : Result string * Registry :=
  let found := getLogger name reg in
  let logger := fst found in
  let reg := snd found in
  match handlers_of reg logger with
  | [] =>
      let handler := {| handler_format := log_format |} in
      let reg := addHandler logger handler reg in
      match named_level LOG_LEVEL with
      | Return lvl => (Return logger, setLevel logger lvl reg)
      | Raised e => (Raised e, reg)
      end
  | _ :: _ => (Return logger, reg)
  end.

End GetLogger.

(** The levels that the [logging] module names. *)
Definition standard_level (s : string) : option Z :=
  if String.eqb s "CRITICAL" then Some 50%Z
  else if String.eqb s "FATAL" then Some 50%Z
  else if String.eqb s "ERROR" then Some 40%Z
  else if String.eqb s "WARNING" then Some 30%Z
  else if String.eqb s "WARN" then Some 30%Z
  else if String.eqb s "INFO" then Some 20%Z
  else if String.eqb s "DEBUG" then Some 10%Z
  else if String.eqb s "NOTSET" then Some 0%Z
  else None.

(** For the runs below: the names of the levels, and an error for every
    other name (an [AttributeError] where the module has no such
    attribute; its class is not of this model and [Exception] stands for
    it). *)
Definition sample_named_level (s : string) : Result Z :=
  match standard_level s with
  | Some lvl => Return lvl
  | None => Raised {| exc_class := Exception; exc_args := Text s |}
  end.

(** The loggers when the module has been imported: the root logger, at
    [WARNING]. *)
Definition initial : Registry :=
  [("root", {| handlers := []; level := 30 |})].

End Logging.

Module MoreSamples.
Import Sample.

(** Fails on its first two invocations, then gives the number of
    invocations so far; one second each time. *)
Definition flaky : Operation PyValue nat :=
  {| op_name := "fetch";
     op_body := fun _ _ s _ =>
       ((if (s <? 2)%nat then Raised boom else Return (PyInt (Z.of_nat s))),
        S s, 1%Q) |}.

(** A table of five rows with the columns A, B and C. *)
Definition wide_table : PyValue :=
  PyFrame {| df_len := 5; df_columns := ["A"; "B"; "C"] |}.

End MoreSamples.

(** * Facts about the model *)

Lemma Qltb_lt (x y : Q) : Qltb x y = true <-> (x < y)%Q.
Proof.
  unfold Qltb. rewrite negb_true_iff. split.
  - intros Hb. apply Qnot_le_lt. intros Hle.
    apply Qle_bool_iff in Hle. congruence.
  - intros Hlt. destruct (Qle_bool y x) eqn:E; [|reflexivity].
    apply Qle_bool_iff in E. exfalso. apply (Qlt_not_le _ _ Hlt E).
Qed.

Lemma Qltb_ge (x y : Q) : Qltb x y = false <-> (y <= x)%Q.
Proof.
  unfold Qltb. rewrite negb_false_iff. apply Qle_bool_iff.
Qed.

(** ** The taxonomy *)

(** Every class of [exceptions.py] derives from [ICTTradingError], and so
    from [Exception]. *)
Lemma declared_derive_from_root :
  forallb (fun c => issubclass c ICTTradingError && issubclass c Exception)
          declared = true.
Proof. reflexivity. Qed.

(** The leaf kinds, in the order of the file. *)
Lemma leaf_kinds :
  filter is_leaf_kind declared
  = [ DataValidationError; DataSourceError; InsufficientDataError;
      PatternNotFoundError; InvalidPatternError;
      ModelNotFoundError; MLTrainingError; FeatureEngineeringError;
      RiskManagementError; ExecutionError; PositionSizingError;
      PerformanceCalculationError; ConfigurationError; ValidationError ].
Proof. reflexivity. Qed.

(** ** Runs of the retry loop *)

Section RetryFacts.
Context {Value State : Type}.
Implicit Types (w : World Value State) (tr : list (Event Value)).
Implicit Types (op : Operation Value State).

Lemma call_outcomes_app tr1 tr2 :
  call_outcomes (tr1 ++ tr2) = call_outcomes tr1 ++ call_outcomes tr2.
Proof. apply flat_map_app. Qed.

Lemma schedule_app tr1 tr2 :
  schedule (tr1 ++ tr2) = schedule tr1 ++ schedule tr2.
Proof. apply flat_map_app. Qed.

Lemma time_sleep_ok (c : Q) w :
  (0 <= c)%Q ->
  time_sleep c w = emit (EvSleep c) (advance c w).
Proof.
  intros Hc. unfold time_sleep.
  now rewrite (proj2 (Qltb_ge c 0) Hc).
Qed.

Lemma retry_loop_cons (sleep : Q -> M Value State unit)
    (func : Callable Value State) args kwargs n b attempt rest c le w :
  retry_loop sleep func args kwargs n b (attempt :: rest) c le w =
  match call func args kwargs w with
  | (Return result, w') => (Return result, w')
  | (Raised e, w') =>
      if isinstance e Exception then
        if (attempt <? n - 1)%Z then
          bind (logger WARNING
                  (AttemptFailed (func_name func) (attempt + 1) e c))
            (fun _ => bind (sleep c)
               (fun _ => retry_loop sleep func args kwargs n b rest
                           (c * b)%Q (Some e))) w'
        else
          bind (logger ERROR (AttemptsExhausted (func_name func) n e))
            (fun _ => retry_loop sleep func args kwargs n b rest c (Some e)) w'
      else (Raised e, w')
  end.
Proof. reflexivity. Qed.

(** A loop over an operation that always fails makes every attempt it is
    given, waits after each but the last, and ends on the last error. *)
Lemma retry_loop_always_fails
    (sleep : Q -> M Value State unit) (ok : Q -> Prop)
    op args kwargs (n : Z) (b : Q) :
  (forall c w, ok c ->
     exists w' ev, sleep c w = (Return tt, w')
                   /\ events w' = events w ++ [ev]
                   /\ schedule [ev] = [Some c]
                   /\ call_outcomes [ev] = []) ->
  (forall c, ok c -> ok (c * b)%Q) ->
  always_fails op ->
  forall (m i : nat) (c : Q) (le : option Exc) w,
    ok c -> Z.of_nat (i + S m) = n ->
    exists w' tr e,
      retry_loop sleep (operation op) args kwargs n b
        (map Z.of_nat (seq i (S m))) c le w = (Raised e, w')
      /\ events w' = events w ++ tr
      /\ schedule tr = backoff_schedule c b m
      /\ List.length (call_outcomes tr) = S m
      /\ nth_error (call_outcomes tr) m = Some (Raised e).
Proof.
  intros Hsleep Hmul Hfail.
  induction m as [|m IH]; intros i c le w Hc Hn.
  - destruct (Hfail args kwargs (state w) (now w)) as [e [He Hexc]].
    cbn [seq map retry_loop operation call].
    rewrite He, Hexc.
    destruct (Z.ltb_spec (Z.of_nat i) (n - 1)) as [Hlt|_]; [lia|].
    eexists _, [EvCall (op_name op) args kwargs (Raised e); _], e.
    cbn. rewrite <- app_assoc. repeat split; reflexivity.
  - destruct (Hfail args kwargs (state w) (now w)) as [e [He Hexc]].
    change (seq i (S (S m))) with (i :: seq (S i) (S m)).
    rewrite map_cons, retry_loop_cons. cbn [operation call func_name].
    rewrite He, Hexc.
    destruct (Z.ltb_spec (Z.of_nat i) (n - 1)) as [_|Hge]; [|lia].
    unfold bind at 1, logger at 1, emit at 1. cbn [now _cache events state].
    match goal with
    | |- context [bind (sleep c) _ ?w1] =>
        destruct (Hsleep c w1 Hc) as (w2 & ev & Hs & Hev & Hsch & Hout)
    end.
    unfold bind at 1. rewrite Hs.
    destruct (IH (S i) (c * b)%Q (Some e) w2 (Hmul c Hc)) as
      (w' & tr & e' & Hrun & Hevs & Hsched & Hlen & Hlast); [lia|].
    rewrite Hrun.
    exists w', ([EvCall (op_name op) args kwargs (Raised e);
                 EvLog WARNING
                   (AttemptFailed (op_name op) (Z.of_nat i + 1) e c)]
                ++ [ev] ++ tr), e'.
    split; [reflexivity|]. split.
    { rewrite Hevs, Hev. cbn [events]. now rewrite <- !app_assoc. }
    split.
    { rewrite !schedule_app, Hsch, Hsched. reflexivity. }
    split.
    { rewrite !call_outcomes_app, Hout, !length_app, Hlen. reflexivity. }
    rewrite !call_outcomes_app, Hout. exact Hlast.
Qed.

Lemma time_sleep_step (c : Q) w :
  (0 <= c)%Q ->
  exists w' ev, time_sleep c w = (Return tt, w')
                /\ events w' = events w ++ [ev]
                /\ schedule [ev] = [Some c]
                /\ call_outcomes [ev] = [].
Proof.
  intros Hc. rewrite (time_sleep_ok c w Hc).
  eexists _, (EvSleep c). repeat split; reflexivity.
Qed.

Lemma asyncio_sleep_step (c : Q) w :
  exists w' ev, asyncio_sleep c w = (Return tt, w')
                /\ events w' = events w ++ [ev]
                /\ schedule [ev] = [Some c]
                /\ call_outcomes [ev] = [].
Proof.
  eexists _, (EvAsyncSleep c). repeat split; reflexivity.
Qed.

End RetryFacts.

(** ** The delays of the backoff *)

Lemma backoff_delay_succ (c b : Q) (j : nat) :
  backoff_delay c b (S j) = backoff_delay (c * b) b j.
Proof. exact (Nat.iter_succ_r j Q (fun x => x * b)%Q c). Qed.

Lemma backoff_delay_power (c b : Q) (j : nat) :
  (backoff_delay c b j == c * b ^ Z.of_nat j)%Q.
Proof.
  induction j as [|j IH].
  - cbn. ring.
  - unfold backoff_delay in *. rewrite Nat.iter_succ, IH.
    rewrite Nat2Z.inj_succ, <- Z.add_1_r.
    rewrite Qpower_plus' by lia. rewrite Qpower_1_r. ring.
Qed.

Lemma waits_backoff_schedule (c b : Q) (m : nat) :
  waits (backoff_schedule c b m) = map (backoff_delay c b) (seq 0 m).
Proof.
  revert c. induction m as [|m IH]; intros c; [reflexivity|].
  cbn [backoff_schedule waits flat_map app]. fold (waits (backoff_schedule (c * b) b m)).
  rewrite IH. cbn [seq map]. f_equal.
  rewrite <- seq_shift, map_map.
  apply map_ext. intros j. symmetry. apply backoff_delay_succ.
Qed.

Lemma nonneg_mul (b c : Q) : (0 <= b)%Q -> (0 <= c)%Q -> (0 <= c * b)%Q.
Proof. intros Hb Hc. now apply Qmult_le_0_compat. Qed.

(** ** retry over an operation that keeps failing *)

Section RetryClaims.
Context {Value State : Type}.
Implicit Types (w : World Value State) (tr : list (Event Value)).
Implicit Types (op : Operation Value State).

Lemma range_succ (n : Z) :
  (1 <= n)%Z -> range n = map Z.of_nat (seq 0 (S (Z.to_nat n - 1))).
Proof.
  intros Hn. unfold range. f_equal. f_equal. lia.
Qed.

Lemma backoff_run_loop
    (sleep : Q -> M Value State unit) (ok : Q -> Prop)
    op args kwargs (n : Z) (d b : Q) w :
  (forall c w, ok c ->
     exists w' ev, sleep c w = (Return tt, w')
                   /\ events w' = events w ++ [ev]
                   /\ schedule [ev] = [Some c]
                   /\ call_outcomes [ev] = []) ->
  (forall c, ok c -> ok (c * b)%Q) ->
  always_fails op -> (1 <= n)%Z -> ok d ->
  backoff_run op args kwargs n d b w
    (retry_loop sleep (operation op) args kwargs n b (range n) d None w).
Proof.
  intros Hsleep Hmul Hfail Hn Hd.
  rewrite (range_succ n Hn).
  destruct (retry_loop_always_fails sleep ok op args kwargs n b
              Hsleep Hmul Hfail (Z.to_nat n - 1) 0 d None w Hd)
    as (w' & tr & e & Hrun & Hevs & Hsched & Hlen & _); [lia|].
  exists tr. split; [now rewrite Hrun|].
  split; [rewrite Hlen; lia|].
  split; [exact Hsched|].
  rewrite Hsched, waits_backoff_schedule.
  split; [now rewrite length_map, length_seq|].
  split.
  - intros k Hk. exists (backoff_delay d b (Z.to_nat (k - 2))). split.
    + rewrite nth_error_map, nth_error_seq.
      destruct (Nat.ltb_spec (Z.to_nat (k - 2)) (Z.to_nat n - 1)); [|lia].
      reflexivity.
    + rewrite backoff_delay_power, Z2Nat.id by lia. reflexivity.
  - intros ->. split; [reflexivity|].
    destruct (Hfail args kwargs (state w) (now w)) as [e1 [He1 Hexc]].
    change (map Z.of_nat (seq 0 (S (Z.to_nat 1 - 1)))) with [0%Z].
    rewrite retry_loop_cons. cbn [operation call func_name].
    rewrite He1, Hexc. reflexivity.
Qed.

(** C1: with [max_attempts = n >= 1] (and a delay and a backoff factor
    that the wrapper accepts), a retry-wrapped operation that raises an
    error on every invocation is invoked exactly [n] times, and the call
    raises the very error of the [n]-th invocation. *)
Theorem retry_invokes_n_times_and_raises_last
    op args kwargs (n : Z) (d b : Q) w :
  (1 <= n)%Z -> (0 <= d)%Q -> (1 <= b)%Q -> always_fails op ->
  exists w' tr e,
    call (retry n d b (operation op)) args kwargs w = (Raised e, w')
    /\ events w' = events w ++ tr
    /\ Z.of_nat (List.length (call_outcomes tr)) = n
    /\ nth_error (call_outcomes tr) (Z.to_nat n - 1) = Some (Raised e).
Proof.
  intros Hn Hd Hb Hfail.
  assert (Hb0 : (0 <= b)%Q) by (apply Qle_trans with 1%Q; [discriminate|exact Hb]).
  unfold retry. cbn [call]. rewrite (range_succ n Hn).
  destruct (retry_loop_always_fails time_sleep (fun c => (0 <= c)%Q)
              op args kwargs n b
              (fun c w => time_sleep_step c w) (fun c => nonneg_mul b c Hb0) Hfail
              (Z.to_nat n - 1) 0 d None w Hd)
    as (w' & tr & e & Hrun & Hevs & _ & Hlen & Hlast); [lia|].
  exists w', tr, e. rewrite Hlen. repeat split; try assumption. lia.
Qed.

(** C4: with [max_attempts = n >= 1], [base_delay = d >= 0] and
    [backoff_factor = b >= 1], over an operation that always fails, both
    [retry] and [retry_async] wait exactly [n - 1] times, the wait before
    attempt [k] ([2 <= k <= n]) is [d * b ^ (k - 2)], and with [n = 1] the
    operation is invoked once and no wait takes place. *)
Theorem retry_waits_follow_backoff
    op args kwargs (n : Z) (d b : Q) w :
  (1 <= n)%Z -> (0 <= d)%Q -> (1 <= b)%Q -> always_fails op ->
  backoff_run op args kwargs n d b w
    (call (retry n d b (operation op)) args kwargs w)
  /\ backoff_run op args kwargs n d b w
       (call (retry_async n d b (operation op)) args kwargs w).
Proof.
  intros Hn Hd Hb Hfail.
  assert (Hb0 : (0 <= b)%Q) by (apply Qle_trans with 1%Q; [discriminate|exact Hb]).
  split.
  - apply (backoff_run_loop time_sleep (fun c => (0 <= c)%Q));
      auto using time_sleep_step, nonneg_mul.
  - apply (backoff_run_loop asyncio_sleep (fun _ => True));
      auto using asyncio_sleep_step.
Qed.

End RetryClaims.

(** ** monitor_performance *)

Section MonitorClaims.
Context {Value State : Type}.
Implicit Types (w : World Value State) (op : Operation Value State).

(** C6, as the code has it: an invocation of a timing-wrapped operation
    logs, after the one invocation of the operation, exactly one record
    when the operation returns (at [DEBUG], of the execution) or raises
    an error (at [ERROR], of the failure, with the error), and no record
    when it raises what is not an [Exception]. In every case the wrapper
    gives what the operation gave, its result or the very exception it
    raised, and changes nothing else; the [async] wrapper does the
    same. *)
Theorem monitor_performance_logs_results_and_errors op args kwargs w :
  let plain := call (operation op) args kwargs w in
  let elapsed := (now (snd plain) - now w)%Q in
  let records :=
    match fst plain with
    | Return _ => [(DEBUG, Executed (op_name op) elapsed)]
    | Raised e =>
        if isinstance e Exception
        then [(ERROR, FailedAfter (op_name op) elapsed e)]
        else []
    end in
  let run := call (monitor_performance (operation op)) args kwargs w in
  fst run = fst plain
  /\ (exists tr, events (snd run) = events w ++ tr
                 /\ call_outcomes tr = [fst plain]
                 /\ log_records tr = records)
  /\ (now (snd run), _cache (snd run), state (snd run))
     = (now (snd plain), _cache (snd plain), state (snd plain))
  /\ (elapsed == snd (op_body op args kwargs (state w) (now w)))%Q
  /\ call (monitor_performance_async (operation op)) args kwargs w = run.
Proof.
  cbn zeta.
  unfold monitor_performance, monitor_performance_async, operation, bind,
    time_time, try_except, logger, emit, ret, raise.
  cbn [call func_name fst snd now events _cache state].
  destruct (fst (fst (op_body op args kwargs (state w) (now w))))
    as [v|e] eqn:Hout.
  - split; [reflexivity|]. split.
    { eexists [_; _]. rewrite <- app_assoc. repeat split. }
    repeat split. ring.
  - destruct (isinstance e Exception);
      cbn [fst snd now events _cache state].
    + split; [reflexivity|]. split.
      { eexists [_; _]. rewrite <- app_assoc. repeat split. }
      repeat split. ring.
    + split; [reflexivity|]. split.
      { eexists [_]. repeat split. }
      repeat split. ring.
Qed.

End MonitorClaims.

(** ** validate_data *)

Section ValidateClaims.
Context {Value State : Type} `{Runtime Value}.
Implicit Types (w : World Value State) (func : Callable Value State).

(** C3, as the code has it: when the table that the wrapper finds has
    fewer than [min_rows] rows or lacks a required column, the wrapper
    raises a [ValueError] and leaves the world as it was, the wrapped
    function not called; the error tells the actual and the required
    number of rows when the rows fall short, and the missing columns
    otherwise. *)
Theorem validate_data_raises_value_error
    func (required_columns : option (list string)) (min_rows : Z)
    args kwargs (df : DataFrame) w :
  locate_frame args kwargs = Some df ->
  ((df_len df < min_rows)%Z
   \/ exists cols col, required_columns = Some cols /\ In col cols
                       /\ has_column df col = false) ->
  exists a,
    call (validate_data required_columns min_rows func) args kwargs w
    = (Raised {| exc_class := ValueError; exc_args := a |}, w)
    /\ ((df_len df < min_rows)%Z -> a = RowCount (df_len df) min_rows)
    /\ ((min_rows <= df_len df)%Z ->
        exists cols,
          required_columns = Some cols
          /\ a = MissingColumns
                   (filter (fun col => negb (has_column df col)) cols)).
Proof.
  intros Hloc Hbad. unfold validate_data. cbn [call]. rewrite Hloc.
  destruct (Z.ltb_spec (df_len df) min_rows) as [Hlt|Hge].
  - exists (RowCount (df_len df) min_rows).
    split; [reflexivity|]. split; [reflexivity|]. lia.
  - destruct Hbad as [Hlt|(cols & col & -> & Hin & Hcol)]; [lia|].
    exists (MissingColumns (filter (fun c => negb (has_column df c)) cols)).
    assert (Hmiss : In col (filter (fun c => negb (has_column df c)) cols)).
    { apply filter_In. split; [exact Hin|]. now rewrite Hcol. }
    destruct cols as [|c cols]; [destruct Hin|].
    destruct (filter (fun c => negb (has_column df c)) (c :: cols))
      as [|m ms] eqn:Hf; [destruct Hmiss|].
    split; [reflexivity|]. split; [lia|].
    intros _. exists (c :: cols). now rewrite Hf.
Qed.

End ValidateClaims.

(** ** The cache *)

Section TTLCacheFacts.
Context {Value : Type}.
Implicit Types (c : TTLCache.t Value) (l : TTLCache.Link Value).

Lemma lookup_app_last c l :
  TTLCache.lookup (TTLCache.remove c (TTLCache.key l) ++ [l]) (TTLCache.key l)
  = Some l.
Proof.
  unfold TTLCache.lookup, TTLCache.remove.
  induction c as [|x c IH]; cbn [filter app find].
  - unfold TTLCache.has_key. now rewrite String.eqb_refl.
  - destruct (TTLCache.has_key (TTLCache.key l) x) eqn:E;
      cbn [negb app find]; [exact IH|].
    rewrite E. exact IH.
Qed.

(** After a store the key is found with the value stored, expiring [ttl]
    after the store. *)
Lemma lookup_setitem maxsize ttl c k (v : Value) time :
  (1 <= maxsize)%Z ->
  fst (TTLCache.setitem maxsize ttl c k v time) = Return tt
  /\ TTLCache.lookup (snd (TTLCache.setitem maxsize ttl c k v time)) k
     = Some {| TTLCache.key := k; TTLCache.value := v;
               TTLCache.expires := time + ttl |}.
Proof.
  intros Hm. unfold TTLCache.setitem.
  destruct (Z.ltb_spec maxsize 1); [lia|]. cbn [fst snd].
  split; [reflexivity|].
  apply (lookup_app_last _ {| TTLCache.key := k; TTLCache.value := v;
                              TTLCache.expires := time + ttl |}).
Qed.

(** A key that is not live stays so as the clock moves on. *)
Lemma contains_false_later c k (time time' : Q) :
  (time <= time')%Q ->
  TTLCache.contains c k time = false ->
  TTLCache.contains c k time' = false.
Proof.
  unfold TTLCache.contains. intros Hle.
  destruct (TTLCache.lookup c k); [|reflexivity].
  rewrite !Qltb_ge. intros Hexp. now apply Qle_trans with time.
Qed.

End TTLCacheFacts.

(** ** sorted(kwargs.items()) *)

Section SortedFacts.
Context {Value : Type} `{Runtime Value}.
Implicit Types (x y : string * Value) (l : list (string * Value)).

(** The order of the names. *)
Let name_lt x y : Prop := String_as_OT.lt (fst x) (fst y).

Lemma item_lt_names x y :
  fst x <> fst y -> item_lt x y = str_ltb (fst x) (fst y).
Proof.
  intros Hne. unfold item_lt.
  now rewrite (proj2 (String.eqb_neq (fst x) (fst y)) Hne).
Qed.

Lemma str_ltb_total (a b : string) :
  a <> b -> str_ltb a b = false -> String_as_OT.lt b a.
Proof.
  unfold str_ltb. intros Hne.
  destruct (String_as_OT.compare_spec a b) as [Heq|Hlt|Hgt];
    [contradiction|discriminate|auto].
Qed.

Lemma str_ltb_lt (a b : string) : str_ltb a b = true -> String_as_OT.lt a b.
Proof.
  unfold str_ltb.
  destruct (String_as_OT.compare_spec a b) as [Heq|Hlt|Hgt];
    [discriminate|auto|discriminate].
Qed.

Lemma insort_perm x l : Permutation (x :: l) (insort x l).
Proof.
  induction l as [|y l IH]; cbn [insort]; [reflexivity|].
  destruct (item_lt x y); [reflexivity|].
  rewrite perm_swap. now constructor.
Qed.

Lemma insort_sorted x l :
  StronglySorted name_lt l -> ~ In (fst x) (map fst l) ->
  StronglySorted name_lt (insort x l).
Proof.
  induction l as [|y l IH]; intros Hs Hnin; cbn [insort].
  - repeat constructor.
  - inversion Hs as [|? ? Hs' Hall]; subst.
    assert (Hne : fst x <> fst y) by (intros Heq; apply Hnin; left; auto).
    rewrite (item_lt_names x y Hne).
    destruct (str_ltb (fst x) (fst y)) eqn:E.
    + apply str_ltb_lt in E. constructor; [exact Hs|].
      constructor; [exact E|].
      eapply Forall_impl; [|exact Hall].
      intros z Hz. unfold name_lt in *.
      now transitivity (fst y).
    + apply (str_ltb_total _ _ Hne) in E.
      constructor.
      * apply IH; [exact Hs'|]. intros Hin. apply Hnin. now right.
      * apply (Permutation_Forall (insort_perm x l)).
        constructor; [exact E|exact Hall].
Qed.

Lemma sorted_from l : forall acc,
  StronglySorted name_lt acc -> NoDup (map fst (acc ++ l)) ->
  StronglySorted name_lt (fold_left (fun acc x => insort x acc) l acc)
  /\ Permutation (acc ++ l) (fold_left (fun acc x => insort x acc) l acc).
Proof.
  induction l as [|x l IH]; intros acc Hs Hnd; cbn [fold_left].
  - rewrite app_nil_r. split; [exact Hs|reflexivity].
  - assert (Hperm : Permutation (acc ++ x :: l) (insort x acc ++ l)).
    { rewrite <- (insort_perm x acc). symmetry.
      apply Permutation_middle. }
    assert (Hx : ~ In (fst x) (map fst acc)).
    { rewrite map_app in Hnd. cbn [map] in Hnd.
      apply NoDup_remove_2 in Hnd. intros Hin. apply Hnd.
      apply in_or_app. now left. }
    destruct (IH (insort x acc)) as [Hs' Hp'].
    + now apply insort_sorted.
    + eapply Permutation_NoDup; [|exact Hnd].
      now apply Permutation_map.
    + split; [exact Hs'|]. now rewrite Hperm.
Qed.

Lemma name_sorted_unique l1 : forall l2,
  StronglySorted name_lt l1 -> StronglySorted name_lt l2 ->
  Permutation l1 l2 -> l1 = l2.
Proof.
  induction l1 as [|x l1 IH]; intros l2 Hs1 Hs2 Hp.
  - now apply Permutation_nil in Hp.
  - destruct l2 as [|y l2].
    { symmetry in Hp. now apply Permutation_nil in Hp. }
    inversion Hs1 as [|? ? Hs1' Hall1]; subst.
    inversion Hs2 as [|? ? Hs2' Hall2]; subst.
    assert (Hxy : x = y).
    { assert (Hx : In x (y :: l2))
        by (apply (Permutation_in _ Hp); now left).
      assert (Hy : In y (x :: l1))
        by (apply (Permutation_in _ (Permutation_sym Hp)); now left).
      destruct Hx as [Hx|Hx]; [now symmetry|].
      destruct Hy as [Hy|Hy]; [exact Hy|].
      rewrite Forall_forall in Hall1, Hall2.
      specialize (Hall1 y Hy). specialize (Hall2 x Hx).
      unfold name_lt in *. exfalso.
      apply (StrictOrder_Irreflexive (fst x)).
      now transitivity (fst y). }
    subst y. f_equal. apply IH; try assumption.
    now apply Permutation_cons_inv in Hp.
Qed.

(** [sorted] gives one list for all the orders in which a call can name
    its arguments. *)
Lemma sorted_permutation (kwargs1 kwargs2 : Kwargs Value) :
  NoDup (map fst kwargs1) -> Permutation kwargs1 kwargs2 ->
  sorted kwargs1 = sorted kwargs2.
Proof.
  intros Hnd Hp. unfold sorted.
  destruct (sorted_from kwargs1 []) as [Hs1 Hp1]; [constructor|exact Hnd|].
  destruct (sorted_from kwargs2 []) as [Hs2 Hp2]; [constructor| |].
  { eapply Permutation_NoDup; [|exact Hnd]. now apply Permutation_map. }
  apply name_sorted_unique; try assumption.
  cbn [app] in Hp1, Hp2. now rewrite <- Hp1, <- Hp2.
Qed.

End SortedFacts.

(** ** cache_result *)

Section CacheClaims.
Context {Value State : Type} `{Runtime Value}.
Implicit Types (w : World Value State) (op : Operation Value State).
Implicit Types (func : Callable Value State).

(** A call whose key is not live calls the function, and stores what it
    returns. *)
Lemma cache_result_miss T func args kwargs w :
  TTLCache.contains (_cache w) (cache_key func args kwargs) (now w) = false ->
  call (cache_result T func) args kwargs w =
  match call func args kwargs w with
  | (Return result, w1) =>
      (Return result,
       snd (logger DEBUG (CachedResult (func_name func))
              (snd (cache_setitem (cache_key func args kwargs) result w1))))
  | (Raised e, w1) => (Raised e, w1)
  end.
Proof.
  intros Hmiss. unfold cache_result. cbn [call].
  unfold bind at 1, cache_contains. rewrite Hmiss.
  unfold bind at 1.
  destruct (call func args kwargs w) as [[v|e] w1]; reflexivity.
Qed.

(** A call whose key is live gives the stored value and calls nothing. *)
Lemma cache_result_hit T func args kwargs w (l : TTLCache.Link Value) :
  TTLCache.lookup (_cache w) (cache_key func args kwargs) = Some l ->
  Qltb (now w) (TTLCache.expires l) = true ->
  exists w3,
    call (cache_result T func) args kwargs w = (Return (TTLCache.value l), w3)
    /\ events w3 = events w ++ [EvLog DEBUG (CacheHit (func_name func))]
    /\ state w3 = state w
    /\ now w3 = now w.
Proof.
  intros Hl Hlive. unfold cache_result. cbn [call].
  unfold bind at 1, cache_contains, TTLCache.contains.
  rewrite Hl, Hlive.
  unfold bind, logger, emit, cache_getitem, TTLCache.getitem.
  cbn [_cache now]. rewrite Hl, Hlive.
  eexists. split; [reflexivity|]. repeat split.
Qed.

(** The result that a first call stored serves every call that computes
    the same key before the entry expires. *)
Lemma cache_result_served T1 T2 op func2 args kwargs args2 kwargs2 w w2
    (v : Value) :
  TTLCache.contains (_cache w) (cache_key (operation op) args kwargs) (now w)
  = false ->
  fst (fst (op_body op args kwargs (state w) (now w))) = Return v ->
  cache_key func2 args2 kwargs2 = cache_key (operation op) args kwargs ->
  _cache w2
  = _cache (snd (call (cache_result T1 (operation op)) args kwargs w)) ->
  (now w2 < now w + snd (op_body op args kwargs (state w) (now w))
            + _cache_ttl)%Q ->
  fst (call (cache_result T1 (operation op)) args kwargs w) = Return v
  /\ exists w3,
       call (cache_result T2 func2) args2 kwargs2 w2 = (Return v, w3)
       /\ events w3 = events w2 ++ [EvLog DEBUG (CacheHit (func_name func2))]
       /\ state w3 = state w2
       /\ now w3 = now w2.
Proof.
  intros Hmiss Hret Hkey Hcache Hnow.
  rewrite (cache_result_miss T1 _ _ _ _ Hmiss) in Hcache |- *.
  cbn [operation call] in Hcache |- *. rewrite Hret in Hcache |- *.
  split; [reflexivity|].
  cbn [snd logger emit _cache cache_setitem set_cache now] in Hcache.
  destruct (lookup_setitem _cache_maxsize _cache_ttl (_cache w)
              (cache_key (operation op) args kwargs) v
              (now w + snd (op_body op args kwargs (state w) (now w))))
    as [_ Hlook]; [unfold _cache_maxsize; lia|].
  rewrite <- Hcache, <- Hkey in Hlook.
  apply (cache_result_hit T2 func2 args2 kwargs2 w2 _ Hlook).
  cbn [TTLCache.expires]. now apply Qltb_lt.
Qed.

(** C7: when the key of a call is not live and the operation raises, the
    error reaches the caller as it is, the cache is left as it was, and
    the next call with these arguments, at any later time, invokes the
    operation again. *)
Theorem cache_result_does_not_store_errors T op args kwargs w (e : Exc) :
  TTLCache.contains (_cache w) (cache_key (operation op) args kwargs) (now w)
  = false ->
  fst (fst (op_body op args kwargs (state w) (now w))) = Raised e ->
  call (cache_result T (operation op)) args kwargs w
  = (Raised e, snd (call (operation op) args kwargs w))
  /\ _cache (snd (call (cache_result T (operation op)) args kwargs w))
     = _cache w
  /\ forall w2,
       _cache w2 = _cache w -> (now w <= now w2)%Q ->
       exists tr,
         events (snd (call (cache_result T (operation op)) args kwargs w2))
         = events w2
           ++ EvCall (op_name op) args kwargs
                (fst (fst (op_body op args kwargs (state w2) (now w2))))
              :: tr.
Proof.
  intros Hmiss Hraise.
  rewrite (cache_result_miss T _ _ _ _ Hmiss).
  cbn [operation call]. rewrite Hraise. cbn [snd _cache].
  split; [reflexivity|]. split; [reflexivity|].
  intros w2 Hcache Hlater.
  assert (Hmiss2 : TTLCache.contains (_cache w2)
                     (cache_key (operation op) args kwargs) (now w2) = false).
  { rewrite Hcache. now apply contains_false_later with (now w). }
  change {| func_name := op_name op;
            call := call (operation op) |} with (operation op).
  rewrite (cache_result_miss T _ _ _ _ Hmiss2).
  cbn [operation call].
  destruct (fst (fst (op_body op args kwargs (state w2) (now w2)))) as [v|e2].
  - eexists. cbn. rewrite <- app_assoc. reflexivity.
  - exists []. reflexivity.
Qed.

(** C8: two calls that name the same arguments in different orders
    compute the same key; so when the first one stored its result, the
    second one, made before the store's entry expires, is served from
    the cache and the operation is not invoked. *)
Theorem cache_key_ignores_the_order_of_kwargs
    T op args (kwargs1 kwargs2 : Kwargs Value) w w2 (v : Value) :
  NoDup (map fst kwargs1) -> Permutation kwargs1 kwargs2 ->
  TTLCache.contains (_cache w) (cache_key (operation op) args kwargs1) (now w)
  = false ->
  fst (fst (op_body op args kwargs1 (state w) (now w))) = Return v ->
  _cache w2
  = _cache (snd (call (cache_result T (operation op)) args kwargs1 w)) ->
  (now w2 < now w + snd (op_body op args kwargs1 (state w) (now w))
            + _cache_ttl)%Q ->
  cache_key (operation op) args kwargs1 = cache_key (operation op) args kwargs2
  /\ exists w3,
       call (cache_result T (operation op)) args kwargs2 w2 = (Return v, w3)
       /\ events w3 = events w2 ++ [EvLog DEBUG (CacheHit (op_name op))]
       /\ state w3 = state w2.
Proof.
  intros Hnd Hperm Hmiss Hret Hcache Hnow.
  assert (Hkey : cache_key (operation op) args kwargs1
                 = cache_key (operation op) args kwargs2).
  { unfold cache_key. now rewrite (sorted_permutation _ _ Hnd Hperm). }
  split; [exact Hkey|].
  destruct (cache_result_served T T op (operation op) args kwargs1
              args kwargs2 w w2 v Hmiss Hret (eq_sym Hkey) Hcache Hnow)
    as (_ & w3 & Hrun & Hev & Hst & _).
  exists w3. auto.
Qed.

(** C10: the key holds the name of the function and nothing else of it,
    and the store is one for all wrappers: after a call of cache-wrapped
    [f] that stored its result, a call of cache-wrapped [g], another
    function of the same name, with the same arguments and before the
    entry expires, gives the result of [f] and does not invoke [g],
    whatever [ttl_seconds] the two wrappers were given. *)
Theorem cache_result_confuses_functions_of_one_name
    (Tf Tg : Z) (f g : Operation Value State) args kwargs w w2 (v : Value) :
  op_name f = op_name g ->
  TTLCache.contains (_cache w) (cache_key (operation f) args kwargs) (now w)
  = false ->
  fst (fst (op_body f args kwargs (state w) (now w))) = Return v ->
  _cache w2
  = _cache (snd (call (cache_result Tf (operation f)) args kwargs w)) ->
  (now w2 < now w + snd (op_body f args kwargs (state w) (now w))
            + _cache_ttl)%Q ->
  cache_key (operation g) args kwargs = cache_key (operation f) args kwargs
  /\ fst (call (cache_result Tf (operation f)) args kwargs w) = Return v
  /\ exists w3,
       call (cache_result Tg (operation g)) args kwargs w2 = (Return v, w3)
       /\ events w3 = events w2 ++ [EvLog DEBUG (CacheHit (op_name g))]
       /\ state w3 = state w2.
Proof.
  intros Hname Hmiss Hret Hcache Hnow.
  assert (Hkey : cache_key (operation g) args kwargs
                 = cache_key (operation f) args kwargs).
  { unfold cache_key. cbn [operation func_name]. now rewrite Hname. }
  split; [exact Hkey|].
  destruct (cache_result_served Tf Tg f (operation g) args kwargs
              args kwargs w w2 v Hmiss Hret Hkey Hcache Hnow)
    as (Hfirst & w3 & Hrun & Hev & Hst & _).
  split; [exact Hfirst|]. exists w3. auto.
Qed.

End CacheClaims.

(** * The theorems on the sample runtime *)

Import Sample.

Lemma failing_always_fails : always_fails failing.
Proof. intros args kwargs s t. exists boom. split; reflexivity. Qed.

Lemma retry_invokes_n_times_and_raises_last_witness :
  exists w' tr e,
    call (retry 3 1 2 (operation failing)) [] [] start = (Raised e, w')
    /\ events w' = events start ++ tr
    /\ Z.of_nat (List.length (call_outcomes tr)) = 3%Z
    /\ nth_error (call_outcomes tr) (Z.to_nat 3 - 1) = Some (Raised e).
Proof.
  apply retry_invokes_n_times_and_raises_last;
    [lia | lra | lra | exact failing_always_fails].
Defined.

Lemma retry_waits_follow_backoff_witness :
  backoff_run failing [] [] 3 (1 # 2) 2 start
    (call (retry 3 (1 # 2) 2 (operation failing)) [] [] start)
  /\ backoff_run failing [] [] 3 (1 # 2) 2 start
       (call (retry_async 3 (1 # 2) 2 (operation failing)) [] [] start).
Proof.
  apply retry_waits_follow_backoff;
    [lia | lra | lra | exact failing_always_fails].
Defined.


(** C6, as the spec has it, fails: an operation that is interrupted
    raises what is not an [Exception]; the timing wrappers pass it on and
    log no record. *)
Lemma monitor_performance_logs_nothing_for_an_interrupt :
  fst (call (monitor_performance (operation interrupted)) [] [] start)
  = Raised {| exc_class := KeyboardInterrupt; exc_args := Text "" |}
  /\ isinstance {| exc_class := KeyboardInterrupt; exc_args := Text "" |}
       Exception = false
  /\ call_outcomes
       (events (snd (call (monitor_performance (operation interrupted))
                       [] [] start)))
     = [Raised {| exc_class := KeyboardInterrupt; exc_args := Text "" |}]
  /\ log_records
       (events (snd (call (monitor_performance (operation interrupted))
                       [] [] start))) = []
  /\ log_records
       (events (snd (call (monitor_performance_async (operation interrupted))
                       [] [] start))) = [].
Proof. repeat split. Qed.

(** What is not an [Exception] is not an error to the wrappers: an
    interrupt passes through [monitor_performance] with no record, and
    through [retry] with no further attempt. *)
Lemma interrupts_pass_through :
  log_records (events (snd (call (monitor_performance (operation interrupted))
                              [] [] start))) = []
  /\ List.length
       (call_outcomes (events (snd (call (retry 3 1 2 (operation interrupted))
                                      [] [] start)))) = 1%nat.
Proof. split; reflexivity. Qed.

Lemma validate_data_raises_value_error_witness :
  exists a,
    call (validate_data (Some ["A"; "C"]) 2 (operation counting))
      [PyInt 7; table] [] start
    = (Raised {| exc_class := ValueError; exc_args := a |}, start)
    /\ ((3 < 2)%Z -> a = RowCount 3 2)
    /\ ((2 <= 3)%Z ->
        exists cols,
          Some ["A"; "C"] = Some cols
          /\ a = MissingColumns
                   (filter (fun col => negb (has_column
                              {| df_len := 3; df_columns := ["A"; "B"] |} col))
                           cols)).
Proof.
  apply (validate_data_raises_value_error (operation counting)
           (Some ["A"; "C"]) 2 [PyInt 7; table] []
           {| df_len := 3; df_columns := ["A"; "B"] |} start).
  - reflexivity.
  - right. exists ["A"; "C"], "C". repeat split. right. now left.
Defined.

(** C3, as the spec has it, fails: for the table of three rows with the
    columns A and B, under the required columns A and C and five rows at
    least, the wrapper does not call the function, but what it raises is
    a [ValueError], not a [DataValidationError], and it tells the rows
    only: the check of the columns is not reached. *)
Lemma validate_data_raises_for_the_rows_only :
  call (validate_data (Some ["A"; "C"]) 5 (operation counting))
    [table] [] start
  = (Raised {| exc_class := ValueError; exc_args := RowCount 3 5 |}, start)
  /\ issubclass ValueError DataValidationError = false
  /\ issubclass ValueError ICTTradingError = false.
Proof. repeat split. Qed.

Lemma cache_result_does_not_store_errors_witness :
  call (cache_result 300 (operation failing)) [PyInt 1] [] start
  = (Raised boom, snd (call (operation failing) [PyInt 1] [] start))
  /\ _cache (snd (call (cache_result 300 (operation failing))
                    [PyInt 1] [] start))
     = _cache start
  /\ forall w2,
       _cache w2 = _cache start -> (now start <= now w2)%Q ->
       exists tr,
         events (snd (call (cache_result 300 (operation failing))
                        [PyInt 1] [] w2))
         = events w2
           ++ EvCall (op_name failing) [PyInt 1] []
                (fst (fst (op_body failing [PyInt 1] [] (state w2) (now w2))))
              :: tr.
Proof.
  apply (cache_result_does_not_store_errors 300 failing [PyInt 1] []
           start boom); reflexivity.
Defined.

Lemma cache_key_ignores_the_order_of_kwargs_witness :
  cache_key (operation counting) [PyInt 1] [("b", PyInt 2); ("a", PyInt 3)]
  = cache_key (operation counting) [PyInt 1] [("a", PyInt 3); ("b", PyInt 2)]
  /\ exists w3,
       call (cache_result 300 (operation counting)) [PyInt 1]
         [("a", PyInt 3); ("b", PyInt 2)]
         (advance 20 (snd (call (cache_result 300 (operation counting))
                             [PyInt 1] [("b", PyInt 2); ("a", PyInt 3)]
                             start)))
       = (Return (PyInt 0), w3)
       /\ events w3
          = events (advance 20
                      (snd (call (cache_result 300 (operation counting))
                              [PyInt 1] [("b", PyInt 2); ("a", PyInt 3)]
                              start)))
            ++ [EvLog DEBUG (CacheHit (op_name counting))]
       /\ state w3
          = state (advance 20
                     (snd (call (cache_result 300 (operation counting))
                             [PyInt 1] [("b", PyInt 2); ("a", PyInt 3)]
                             start))).
Proof.
  apply (cache_key_ignores_the_order_of_kwargs 300 counting [PyInt 1]
           [("b", PyInt 2); ("a", PyInt 3)] [("a", PyInt 3); ("b", PyInt 2)]
           start).
  - repeat constructor; cbn; intuition discriminate.
  - apply perm_swap.
  - reflexivity.
  - reflexivity.
  - reflexivity.
  - reflexivity.
Defined.

Lemma cache_result_confuses_functions_of_one_name_witness :
  cache_key (operation other) [PyInt 1] []
  = cache_key (operation counting) [PyInt 1] []
  /\ fst (call (cache_result 10 (operation counting)) [PyInt 1] [] start)
     = Return (PyInt 0)
  /\ exists w3,
       call (cache_result 600 (operation other)) [PyInt 1] []
         (advance 20 (snd (call (cache_result 10 (operation counting))
                             [PyInt 1] [] start)))
       = (Return (PyInt 0), w3)
       /\ events w3
          = events (advance 20
                      (snd (call (cache_result 10 (operation counting))
                              [PyInt 1] [] start)))
            ++ [EvLog DEBUG (CacheHit (op_name other))]
       /\ state w3
          = state (advance 20
                     (snd (call (cache_result 10 (operation counting))
                             [PyInt 1] [] start))).
Proof.
  apply (cache_result_confuses_functions_of_one_name 10 600 counting other
           [PyInt 1] [] start); reflexivity.
Defined.

(** C2 on the code: under [cache_result(ttl_seconds=10)] a second call
    with the same arguments, 20 seconds after the first has stored its
    result, is served from the cache: the operation has run once, where a
    time to live of 10 seconds has it run twice. The entry expires at
    [1 + 300], by the [ttl] of the store. *)
Theorem cache_result_does_not_read_ttl_seconds :
  let wrapped := cache_result 10 (operation counting) in
  let first := call wrapped [PyInt 1] [] start in
  let second := call wrapped [PyInt 1] [] (advance 20 (snd first)) in
  fst first = Return (PyInt 0)
  /\ map (@TTLCache.expires PyValue) (_cache (snd first)) = [(0 + 1 + 300)%Q]
  /\ now (advance 20 (snd first)) = (0 + 1 + 20)%Q
  /\ fst second = Return (PyInt 0)
  /\ List.length (call_outcomes (events (snd second))) = 1%nat.
Proof. cbv zeta. repeat split. Qed.

(** * More about the decorators *)

(** ** monitor_performance around any function *)

Section MonitorMore.
Context {Value State : Type}.
Implicit Types (w : World Value State) (func : Callable Value State).

(** Around any function, and whatever the function gives,
    [monitor_performance] gives the same and leaves the world that the
    function left, with one record added when the function returned or
    raised an error, and none when it raised what is not an [Exception];
    the [async] wrapper does the same. *)
Theorem monitor_performance_is_transparent func args kwargs w :
  let plain := call func args kwargs w in
  let run := call (monitor_performance func) args kwargs w in
  let elapsed := (now (snd plain) - now w)%Q in
  fst run = fst plain
  /\ (now (snd run), _cache (snd run), state (snd run))
     = (now (snd plain), _cache (snd plain), state (snd plain))
  /\ events (snd run)
     = events (snd plain)
       ++ match fst plain with
          | Return _ => [EvLog DEBUG (Executed (func_name func) elapsed)]
          | Raised e =>
              if isinstance e Exception
              then [EvLog ERROR (FailedAfter (func_name func) elapsed e)]
              else []
          end
  /\ call (monitor_performance_async func) args kwargs w = run.
Proof.
  cbn zeta.
  unfold monitor_performance, monitor_performance_async, bind, time_time,
    try_except, logger, emit, ret, raise.
  cbn [call func_name].
  destruct (call func args kwargs w) as [[v|e] w1]; cbn [fst snd].
  - repeat split.
  - destruct (isinstance e Exception); cbn [fst snd events now _cache state].
    + repeat split.
    + rewrite app_nil_r. repeat split.
Qed.

End MonitorMore.

(** ** retry over any operation *)

Section RetryMore.
Context {Value State : Type}.
Implicit Types (w : World Value State) (tr : list (Event Value)).
Implicit Types (op : Operation Value State) (func : Callable Value State).


(** The loop stops at the first attempt that does not raise an error; it
    waits after each failed attempt but the last one it may make, the
    delay growing by the factor each time. *)
Lemma retry_loop_contract
    (sleep : Q -> M Value State unit) (ok : Q -> Prop)
    op args kwargs (n : Z) (b : Q) :
  (forall c w, ok c ->
     exists w' ev, sleep c w = (Return tt, w')
                   /\ events w' = events w ++ [ev]
                   /\ schedule [ev] = [Some c]
                   /\ call_outcomes [ev] = []) ->
  (forall c, ok c -> ok (c * b)%Q) ->
  forall (m i : nat) (c : Q) (le : option Exc) w,
    ok c -> Z.of_nat (i + S m) = n ->
    exists w' tr earlier r,
      retry_loop sleep (operation op) args kwargs n b
        (map Z.of_nat (seq i (S m))) c le w = (r, w')
      /\ events w' = events w ++ tr
      /\ call_outcomes tr = earlier ++ [r]
      /\ Forall failed_attempt earlier
      /\ (List.length earlier <= m)%nat
      /\ schedule tr = backoff_schedule c b (List.length earlier)
      /\ (failed_attempt r -> List.length earlier = m).
Proof.
  intros Hsleep Hmul.
  induction m as [|m IH]; intros i c le w Hc Hn;
    rewrite <- cons_seq, map_cons, retry_loop_cons;
    cbn [operation call func_name];
    destruct (fst (fst (op_body op args kwargs (state w) (now w))))
      as [v|e] eqn:Hout.
  - eexists _, [EvCall (op_name op) args kwargs (Return v)], [], _.
    repeat split; auto.
  - destruct (isinstance e Exception).
    + destruct (Z.ltb_spec (Z.of_nat i) (n - 1)) as [Hlt|_]; [lia|].
      eexists _, [EvCall (op_name op) args kwargs (Raised e); _], [], _.
      cbn. rewrite <- app_assoc.
      split; [reflexivity|]. repeat split; auto.
    + eexists _, [EvCall (op_name op) args kwargs (Raised e)], [], _.
      repeat split; auto.
  - eexists _, [EvCall (op_name op) args kwargs (Return v)], [], _.
    repeat split; auto; try (cbn; lia).
    intros (e & He & _). discriminate.
  - destruct (isinstance e Exception) eqn:Hexc.
    + destruct (Z.ltb_spec (Z.of_nat i) (n - 1)) as [_|Hge]; [|lia].
      unfold bind at 1, logger at 1, emit at 1.
      cbn [now _cache events state].
      match goal with
      | |- context [bind (sleep c) _ ?w1] =>
          destruct (Hsleep c w1 Hc) as (w2 & ev & Hs & Hev & Hsch & Hnone)
      end.
      unfold bind at 1. rewrite Hs.
      destruct (IH (S i) (c * b)%Q (Some e) w2 (Hmul c Hc)) as
        (w' & tr & earlier & r & Hrun & Hevs & Houts & Hall & Hlen
         & Hsched & Hexh); [lia|].
      rewrite Hrun.
      exists w', ([EvCall (op_name op) args kwargs (Raised e);
                   EvLog WARNING
                     (AttemptFailed (op_name op) (Z.of_nat i + 1) e c)]
                  ++ [ev] ++ tr), (Raised e :: earlier), r.
      split; [reflexivity|]. split.
      { rewrite Hevs, Hev. cbn [events]. now rewrite <- !app_assoc. }
      split.
      { rewrite !call_outcomes_app, Hnone, Houts. reflexivity. }
      split.
      { constructor; [|exact Hall]. exists e. auto. }
      split; [cbn; lia|]. split.
      { rewrite !schedule_app, Hsch, Hsched. reflexivity. }
      intros Hr. cbn. f_equal. auto.
    + eexists _, [EvCall (op_name op) args kwargs (Raised e)], [], _.
      repeat split; auto; try (cbn; lia).
      intros (e' & He' & Hexc'). injection He' as <-. congruence.
Qed.

(** Over any operation, a retry-wrapped call with [max_attempts = n >= 1]
    invokes the operation at most [n] times, one invocation after the
    other failed; it gives what the last invocation gave; between two
    invocations it waits, [d] at first and [b] times longer each time, and
    it does not wait after the last; and when it ends on an error, all
    [n] attempts have been made. *)
Theorem retry_stops_at_the_first_success
    op args kwargs (n : Z) (d b : Q) w :
  (1 <= n)%Z -> (0 <= d)%Q -> (1 <= b)%Q ->
  exists w' tr earlier r,
    call (retry n d b (operation op)) args kwargs w = (r, w')
    /\ events w' = events w ++ tr
    /\ call_outcomes tr = earlier ++ [r]
    /\ Forall failed_attempt earlier
    /\ (Z.of_nat (List.length earlier) < n)%Z
    /\ schedule tr = backoff_schedule d b (List.length earlier)
    /\ (failed_attempt r -> Z.of_nat (List.length earlier) = (n - 1)%Z).
Proof.
  intros Hn Hd Hb.
  assert (Hb0 : (0 <= b)%Q) by (apply Qle_trans with 1%Q; [discriminate|exact Hb]).
  unfold retry. cbn [call]. rewrite (range_succ n Hn).
  destruct (retry_loop_contract time_sleep (fun c => (0 <= c)%Q)
              op args kwargs n b
              (fun c w => time_sleep_step c w) (fun c => nonneg_mul b c Hb0)
              (Z.to_nat n - 1) 0 d None w Hd)
    as (w' & tr & earlier & r & Hrun & Hevs & Houts & Hall & Hlen
        & Hsched & Hexh); [lia|].
  exists w', tr, earlier, r. repeat split; auto; try lia.
  intros Hr. rewrite (Hexh Hr). lia.
Qed.

(** A negative delay: [time.sleep] refuses it, so [retry] ends after the
    first failed attempt on the [ValueError] of the sleep, the error of
    the operation lost; [asyncio.sleep] takes it, and [retry_async]
    makes all its attempts. *)
Theorem retry_negative_delay
    op args kwargs (n : Z) (d b : Q) w :
  (2 <= n)%Z -> (d < 0)%Q -> always_fails op ->
  (exists e w',
     call (retry n d b (operation op)) args kwargs w
     = (Raised {| exc_class := ValueError; exc_args := NegativeSleep |}, w')
     /\ events w'
        = events w ++ [EvCall (op_name op) args kwargs (Raised e);
                       EvLog WARNING (AttemptFailed (op_name op) 1 e d)])
  /\ backoff_run op args kwargs n d b w
       (call (retry_async n d b (operation op)) args kwargs w).
Proof.
  intros Hn Hd Hfail. split.
  - destruct (Hfail args kwargs (state w) (now w)) as [e [He Hexc]].
    exists e. unfold retry. cbn [call].
    rewrite (range_succ n) by lia.
    rewrite <- cons_seq, map_cons, retry_loop_cons.
    cbn [operation call func_name]. rewrite He, Hexc.
    destruct (Z.ltb_spec (Z.of_nat 0) (n - 1)) as [_|Hge]; [|cbn in Hge; lia].
    unfold bind, logger, emit, time_sleep. cbn [now _cache events state].
    rewrite (proj2 (Qltb_lt d 0) Hd).
    eexists. split; [reflexivity|]. cbn [events].
    now rewrite <- app_assoc.
  - apply (backoff_run_loop asyncio_sleep (fun _ => True));
      auto using asyncio_sleep_step. lia.
Qed.

(** With [max_attempts] zero or less there is no attempt: around any
    function, [retry] and [retry_async] raise the [TypeError] of
    [raise None] and leave the world as it was. *)
Theorem retry_without_attempts func args kwargs (n : Z) (d b : Q) w :
  (n <= 0)%Z ->
  call (retry n d b func) args kwargs w
  = (Raised {| exc_class := TypeError; exc_args := NotAnException |}, w)
  /\ call (retry_async n d b func) args kwargs w
     = (Raised {| exc_class := TypeError; exc_args := NotAnException |}, w).
Proof.
  intros Hn. unfold retry, retry_async, range. cbn [call].
  replace (Z.to_nat n) with 0%nat by lia. split; reflexivity.
Qed.



End RetryMore.

(** ** What retry raises *)

Section RetryRaises.
Context {Value State : Type}.
Implicit Types (w : World Value State) (tr : list (Event Value)).
Implicit Types (op : Operation Value State).

Lemma time_sleep_negative (c : Q) w :
  Qltb c 0 = true ->
  time_sleep c w
  = (Raised {| exc_class := ValueError; exc_args := NegativeSleep |}, w).
Proof. intros Hc. unfold time_sleep. now rewrite Hc. Qed.

(** With an attempt to make, the loop of [retry] makes an invocation;
    it ends on what its last invocation gave, or, when a delay is
    negative, on the [ValueError] of [time.sleep] after an invocation
    that failed. *)
Lemma retry_loop_recorded op args kwargs (n : Z) (b : Q) :
  forall (m i : nat) (c : Q) (le : option Exc) w,
    Z.of_nat (i + S m) = n ->
    exists res w' tr earlier last,
      retry_loop time_sleep (operation op) args kwargs n b
        (map Z.of_nat (seq i (S m))) c le w = (res, w')
      /\ events w' = events w ++ tr
      /\ call_outcomes tr = earlier ++ [last]
      /\ Forall failed_attempt earlier
      /\ (res = last
          \/ (res = Raised {| exc_class := ValueError;
                              exc_args := NegativeSleep |}
              /\ failed_attempt last))
      /\ ((0 <= c)%Q -> (0 <= b)%Q -> res = last).
Proof.
  induction m as [|m IH]; intros i c le w Hn;
    rewrite <- cons_seq, map_cons, retry_loop_cons;
    cbn [operation call func_name];
    destruct (fst (fst (op_body op args kwargs (state w) (now w))))
      as [v|e] eqn:Hout.
  - eexists _, _, [EvCall (op_name op) args kwargs (Return v)], [], _.
    repeat split; auto.
  - destruct (isinstance e Exception).
    + destruct (Z.ltb_spec (Z.of_nat i) (n - 1)) as [Hlt|_]; [lia|].
      eexists _, _, [EvCall (op_name op) args kwargs (Raised e); _], [], _.
      cbn. rewrite <- app_assoc.
      split; [reflexivity|]. repeat split; auto.
    + eexists _, _, [EvCall (op_name op) args kwargs (Raised e)], [], _.
      repeat split; auto.
  - eexists _, _, [EvCall (op_name op) args kwargs (Return v)], [], _.
    repeat split; auto.
  - destruct (isinstance e Exception) eqn:Hexc.
    + destruct (Z.ltb_spec (Z.of_nat i) (n - 1)) as [_|Hge]; [|lia].
      unfold bind at 1, logger at 1, emit at 1.
      cbn [now _cache events state].
      unfold bind at 1.
      destruct (Qltb c 0) eqn:Hneg.
      * rewrite (time_sleep_negative c _ Hneg).
        eexists _, _, [EvCall (op_name op) args kwargs (Raised e); _], [], _.
        split; [reflexivity|]. cbn [events]. rewrite <- app_assoc.
        split; [reflexivity|]. split; [reflexivity|]. split; [constructor|].
        split.
        -- right. split; [reflexivity|]. exists e. auto.
        -- intros Hc _. apply Qltb_lt in Hneg. exfalso.
           apply (Qlt_not_le _ _ Hneg Hc).
      * apply Qltb_ge in Hneg. rewrite (time_sleep_ok c _ Hneg).
        unfold emit at 1.
        match goal with
        | |- context [retry_loop _ _ _ _ _ _ _ _ _ ?w2] =>
            destruct (IH (S i) (c * b)%Q (Some e) w2) as
              (res & w' & tr & earlier & last & Hrun & Hevs & Houts & Hall
               & Hres & Hcontract); [lia|]
        end.
        rewrite Hrun.
        exists res, w',
          ([EvCall (op_name op) args kwargs (Raised e);
            EvLog WARNING (AttemptFailed (op_name op) (Z.of_nat i + 1) e c)]
           ++ [EvSleep c] ++ tr), (Raised e :: earlier), last.
        split; [reflexivity|]. split.
        { rewrite Hevs. cbn [events advance]. now rewrite <- !app_assoc. }
        split.
        { rewrite !call_outcomes_app, Houts. reflexivity. }
        split.
        { constructor; [|exact Hall]. exists e. auto. }
        split; [exact Hres|].
        intros Hc Hb. apply Hcontract; [now apply nonneg_mul|exact Hb].
    + eexists _, _, [EvCall (op_name op) args kwargs (Raised e)], [], _.
      repeat split; auto.
Qed.

(** C9: with [max_attempts >= 1] the loop makes an attempt, and where
    [raise last_exception] is reached an error has been recorded: the
    call gives what the last invocation of the operation gave, a result
    or an error, always so when the delay and the factor are as the
    wrapper asks them, the one other end being the [ValueError] of
    [time.sleep] for a negative delay, after an invocation that failed;
    the [None] that [last_exception] starts with is never read. With
    [max_attempts = 0] the operation is not invoked and the call raises
    the [TypeError] of [raise None]. *)
Theorem retry_reraises_a_recorded_error
    op args kwargs (n : Z) (d b : Q) w :
  (1 <= n)%Z ->
  (exists res w' tr earlier last,
     call (retry n d b (operation op)) args kwargs w = (res, w')
     /\ events w' = events w ++ tr
     /\ call_outcomes tr = earlier ++ [last]
     /\ Forall failed_attempt earlier
     /\ (res = last
         \/ (res = Raised {| exc_class := ValueError;
                             exc_args := NegativeSleep |}
             /\ failed_attempt last))
     /\ ((0 <= d)%Q -> (1 <= b)%Q -> res = last))
  /\ (forall last_exception : option Exc,
        retry_loop time_sleep (operation op) args kwargs n b (range n) d
          last_exception w
        = call (retry n d b (operation op)) args kwargs w)
  /\ call (retry 0 d b (operation op)) args kwargs w
     = (Raised {| exc_class := TypeError; exc_args := NotAnException |}, w).
Proof.
  intros Hn. split; [|split; [|reflexivity]].
  - unfold retry. cbn [call]. rewrite (range_succ n Hn).
    destruct (retry_loop_recorded op args kwargs n b
                (Z.to_nat n - 1) 0 d None w)
      as (res & w' & tr & earlier & last & Hrun & Hevs & Houts & Hall
          & Hres & Hcontract); [lia|].
    exists res, w', tr, earlier, last. repeat split; auto.
    intros Hd Hb. apply Hcontract; [exact Hd|].
    apply Qle_trans with 1%Q; [discriminate|exact Hb].
  - intros last_exception. unfold retry. cbn [call].
    rewrite (range_succ n Hn), <- cons_seq, map_cons.
    now rewrite !retry_loop_cons.
Qed.


End RetryRaises.

(** ** validate_data on the calls it lets through *)

Section ValidateMore.
Context {Value State : Type} `{Runtime Value}.
Implicit Types (w : World Value State) (func : Callable Value State).

Lemma filter_nothing {A : Type} (f : A -> bool) (l : list A) :
  (forall x, In x l -> f x = false) -> filter f l = [].
Proof.
  induction l as [|x l IH]; intros Hall; [reflexivity|].
  cbn [filter]. rewrite (Hall x (or_introl eq_refl)).
  apply IH. intros y Hy. apply Hall. now right.
Qed.

Lemma validate_data_accepts func (required_columns : option (list string))
    (min_rows : Z) args kwargs w :
  (forall df, locate_frame args kwargs = Some df ->
     (min_rows <= df_len df)%Z
     /\ forall cols col, required_columns = Some cols -> In col cols ->
                         has_column df col = true) ->
  call (validate_data required_columns min_rows func) args kwargs w
  = call func args kwargs w.
Proof.
  intros Hvalid. unfold validate_data. cbn [call].
  destruct (locate_frame args kwargs) as [df|]; [|reflexivity].
  destruct (Hvalid df eq_refl) as [Hrows Hcols].
  destruct (Z.ltb_spec (df_len df) min_rows); [lia|].
  destruct required_columns as [[|c cols]|]; try reflexivity.
  rewrite filter_nothing; [reflexivity|].
  intros col Hin. now rewrite (Hcols (c :: cols) col eq_refl Hin).
Qed.

Lemma find_frame_first (before : list Value) (v : Value) after df :
  Forall (fun x => as_frame x = None) before -> as_frame v = Some df ->
  find_frame (before ++ v :: after) = Some df.
Proof.
  intros Hnone Hv. induction Hnone as [|x before Hx _ IH]; cbn.
  - now rewrite Hv.
  - now rewrite Hx.
Qed.

Lemma find_frame_none (values : list Value) :
  Forall (fun x => as_frame x = None) values -> find_frame values = None.
Proof.
  induction 1 as [|x l Hx _ IH]; cbn; [reflexivity|]. now rewrite Hx.
Qed.

(** When the wrapper finds no table among the arguments, or finds one
    with [min_rows] rows at least and every required column, the call is
    the call of the wrapped function: same arguments, same outcome, same
    world after. *)
Theorem validate_data_lets_valid_calls_through
    func (required_columns : option (list string)) (min_rows : Z)
    args kwargs w :
  (forall df, locate_frame args kwargs = Some df ->
     (min_rows <= df_len df)%Z
     /\ forall cols col, required_columns = Some cols -> In col cols ->
                         has_column df col = true) ->
  call (validate_data required_columns min_rows func) args kwargs w
  = call func args kwargs w.
Proof. apply validate_data_accepts. Qed.

(** The wrapper checks one table, the first it finds, the positional
    arguments before the named ones: when that table passes, the call
    goes through, whatever other tables follow it among the arguments;
    and a table among the named arguments is only looked at when no
    positional argument is a table. *)
Theorem validate_data_checks_the_first_table_only
    func (required_columns : option (list string)) (min_rows : Z)
    (before after : list Value) (v : Value) (kwargs : Kwargs Value)
    (kw_before kw_after : Kwargs Value) (name : string)
    (df : DataFrame) w :
  Forall (fun x => as_frame x = None) before ->
  as_frame v = Some df ->
  (min_rows <= df_len df)%Z ->
  (forall cols col, required_columns = Some cols -> In col cols ->
                    has_column df col = true) ->
  Forall (fun x => as_frame (snd x) = None) kw_before ->
  call (validate_data required_columns min_rows func)
    (before ++ v :: after) kwargs w
  = call func (before ++ v :: after) kwargs w
  /\ call (validate_data required_columns min_rows func)
       before (kw_before ++ (name, v) :: kw_after) w
     = call func before (kw_before ++ (name, v) :: kw_after) w.
Proof.
  intros Hbefore Hv Hrows Hcols Hkw. split; apply validate_data_accepts.
  - intros df' Hloc. unfold locate_frame in Hloc.
    rewrite (find_frame_first before v after df Hbefore Hv) in Hloc.
    injection Hloc as <-. auto.
  - intros df' Hloc. unfold locate_frame in Hloc.
    rewrite (find_frame_none before Hbefore) in Hloc.
    rewrite map_app in Hloc. cbn [map snd] in Hloc.
    rewrite (find_frame_first (map snd kw_before) v (map snd kw_after) df)
      in Hloc; [|now apply Forall_map|exact Hv].
    injection Hloc as <-. auto.
Qed.

End ValidateMore.

(** ** The life of a cache entry *)

Section CacheMore.
Context {Value State : Type} `{Runtime Value}.
Implicit Types (w : World Value State) (op : Operation Value State).
Implicit Types (func : Callable Value State).
Implicit Types (c : TTLCache.t Value) (l : TTLCache.Link Value).

Lemma lookup_key c k l : TTLCache.lookup c k = Some l -> TTLCache.key l = k.
Proof.
  unfold TTLCache.lookup. intros Hl. apply find_some in Hl.
  destruct Hl as [_ Hk]. now apply String.eqb_eq in Hk.
Qed.

Lemma lookup_in c k l : TTLCache.lookup c k = Some l -> In l c.
Proof.
  unfold TTLCache.lookup. intros Hl. now apply find_some in Hl.
Qed.

(** What a storing call leaves in the cache under its key. *)
Lemma cache_result_stores T op args kwargs w (v : Value) :
  TTLCache.contains (_cache w) (cache_key (operation op) args kwargs) (now w)
  = false ->
  fst (fst (op_body op args kwargs (state w) (now w))) = Return v ->
  TTLCache.lookup
    (_cache (snd (call (cache_result T (operation op)) args kwargs w)))
    (cache_key (operation op) args kwargs)
  = Some {| TTLCache.key := cache_key (operation op) args kwargs;
            TTLCache.value := v;
            TTLCache.expires :=
              now w + snd (op_body op args kwargs (state w) (now w))
              + _cache_ttl |}.
Proof.
  intros Hmiss Hret.
  rewrite (cache_result_miss T _ _ _ _ Hmiss).
  cbn [operation call]. rewrite Hret.
  cbn [snd logger emit _cache cache_setitem set_cache now].
  apply lookup_setitem. unfold _cache_maxsize. lia.
Qed.

(** An entry lives for the [ttl] of the store, 300 seconds from the
    moment it was stored: a call with the same arguments before that is
    served the stored result and invokes nothing; a call at that moment
    or later invokes the operation again. *)
Theorem cache_entry_lives_for_the_ttl_of_the_store
    T op args kwargs w w2 (v : Value) :
  TTLCache.contains (_cache w) (cache_key (operation op) args kwargs) (now w)
  = false ->
  fst (fst (op_body op args kwargs (state w) (now w))) = Return v ->
  _cache w2
  = _cache (snd (call (cache_result T (operation op)) args kwargs w)) ->
  ((now w2 < now w + snd (op_body op args kwargs (state w) (now w))
             + _cache_ttl)%Q ->
   exists w3,
     call (cache_result T (operation op)) args kwargs w2 = (Return v, w3)
     /\ events w3 = events w2 ++ [EvLog DEBUG (CacheHit (op_name op))])
  /\ ((now w + snd (op_body op args kwargs (state w) (now w)) + _cache_ttl
       <= now w2)%Q ->
      exists tr,
        fst (call (cache_result T (operation op)) args kwargs w2)
        = fst (fst (op_body op args kwargs (state w2) (now w2)))
        /\ events (snd (call (cache_result T (operation op)) args kwargs w2))
           = events w2
             ++ EvCall (op_name op) args kwargs
                  (fst (fst (op_body op args kwargs (state w2) (now w2))))
                :: tr).
Proof.
  intros Hmiss Hret Hcache. split.
  - intros Hnow.
    destruct (cache_result_served T T op (operation op) args kwargs
                args kwargs w w2 v Hmiss Hret eq_refl Hcache Hnow)
      as (_ & w3 & Hrun & Hev & _).
    exists w3. auto.
  - intros Hlate.
    assert (Hmiss2 : TTLCache.contains (_cache w2)
                       (cache_key (operation op) args kwargs) (now w2)
                     = false).
    { unfold TTLCache.contains.
      rewrite Hcache, (cache_result_stores T op args kwargs w v Hmiss Hret).
      cbn [TTLCache.expires]. now apply Qltb_ge. }
    rewrite (cache_result_miss T _ _ _ _ Hmiss2).
    cbn [operation call].
    destruct (fst (fst (op_body op args kwargs (state w2) (now w2))))
      as [v2|e2].
    + eexists. split; [reflexivity|]. cbn. rewrite <- app_assoc. reflexivity.
    + exists []. split; reflexivity.
Qed.

(** A hit does not renew the entry: after a call served from the cache,
    the entry is there with the value and the expiry it had. *)
Theorem cache_hit_does_not_renew_the_entry T func args kwargs w l :
  TTLCache.lookup (_cache w) (cache_key func args kwargs) = Some l ->
  Qltb (now w) (TTLCache.expires l) = true ->
  fst (call (cache_result T func) args kwargs w) = Return (TTLCache.value l)
  /\ TTLCache.lookup
       (_cache (snd (call (cache_result T func) args kwargs w)))
       (cache_key func args kwargs)
     = Some l.
Proof.
  intros Hl Hlive. unfold cache_result. cbn [call].
  unfold bind at 1, cache_contains, TTLCache.contains.
  rewrite Hl, Hlive.
  unfold bind, logger, emit, cache_getitem, TTLCache.getitem.
  cbn [_cache now]. rewrite Hl, Hlive. cbn [fst snd set_cache _cache].
  split; [reflexivity|]. rewrite Hl, Hlive. cbn [snd].
  rewrite <- (lookup_key _ _ _ Hl). apply lookup_app_last.
Qed.

Lemma remove_keys_nodup c k :
  NoDup (map (@TTLCache.key Value) c) ->
  NoDup (map (@TTLCache.key Value) (TTLCache.remove c k)).
Proof.
  unfold TTLCache.remove. induction c as [|x c IH]; intros Hnd; [constructor|].
  inversion Hnd as [|? ? Hnin Hnd']; subst. cbn [filter].
  destruct (negb (TTLCache.has_key k x)); [|auto].
  cbn [map]. constructor; [|auto].
  intros Hin. apply Hnin. apply in_map_iff in Hin.
  destruct Hin as (y & Hy & Hin). apply filter_In in Hin.
  apply in_map_iff. exists y. tauto.
Qed.

Lemma remove_not_in c k :
  ~ In k (map (@TTLCache.key Value) (TTLCache.remove c k)).
Proof.
  unfold TTLCache.remove. intros Hin. apply in_map_iff in Hin.
  destruct Hin as (y & Hy & Hin). apply filter_In in Hin.
  destruct Hin as [_ Hneg]. unfold TTLCache.has_key in Hneg.
  rewrite Hy, String.eqb_refl in Hneg. discriminate.
Qed.

Lemma put_last_nodup c l :
  NoDup (map (@TTLCache.key Value) c) ->
  NoDup (map (@TTLCache.key Value)
             (TTLCache.remove c (TTLCache.key l) ++ [l])).
Proof.
  intros Hnd. rewrite map_app. cbn [map].
  apply NoDup_app_remove_l with (l := []). cbn [app].
  apply Permutation_NoDup with (TTLCache.key l
                                :: map (@TTLCache.key Value)
                                       (TTLCache.remove c (TTLCache.key l))).
  - apply Permutation_cons_append.
  - constructor; [apply remove_not_in|now apply remove_keys_nodup].
Qed.

Lemma remove_length c k :
  (List.length (TTLCache.remove c k) <= List.length c)%nat.
Proof. apply filter_length_le. Qed.

Lemma remove_length_found c k l :
  TTLCache.lookup c k = Some l ->
  (List.length (TTLCache.remove c k) < List.length c)%nat.
Proof.
  unfold TTLCache.lookup, TTLCache.remove.
  induction c as [|x c IH]; cbn [find filter]; [discriminate|].
  destruct (TTLCache.has_key k x); cbn [negb List.length].
  - intros _. pose proof (filter_length_le
                            (fun l0 => negb (TTLCache.has_key k l0)) c). lia.
  - intros Hl. specialize (IH Hl). lia.
Qed.

Lemma evict_suffix (maxsize : Z) c :
  exists dropped, c = dropped ++ TTLCache.evict maxsize c.
Proof.
  induction c as [|x c IH]; [now exists []|].
  cbn [TTLCache.evict].
  destruct (maxsize <? Z.of_nat (List.length (x :: c)) + 1)%Z.
  - destruct IH as [dropped Hd]. exists (x :: dropped). cbn. now f_equal.
  - now exists [].
Qed.

Lemma evict_length (maxsize : Z) c :
  (1 <= maxsize)%Z ->
  (Z.of_nat (List.length (TTLCache.evict maxsize c)) + 1 <= maxsize)%Z.
Proof.
  intros Hm. induction c as [|x c IH]; [cbn; lia|].
  cbn [TTLCache.evict].
  destruct (Z.ltb_spec maxsize (Z.of_nat (List.length (x :: c)) + 1));
    [exact IH|lia].
Qed.

Lemma setitem_within_bounds c k (v : Value) (time : Q) :
  cache_within_bounds c ->
  cache_within_bounds
    (snd (TTLCache.setitem _cache_maxsize _cache_ttl c k v time)).
Proof.
  intros [Hnd Hlen]. unfold TTLCache.setitem.
  change (_cache_maxsize <? 1)%Z with false. cbn [snd].
  set (l := {| TTLCache.key := k; TTLCache.value := v;
               TTLCache.expires := time + _cache_ttl |}).
  assert (Hnd1 : NoDup (map (@TTLCache.key Value) (TTLCache.expire c time))).
  { unfold TTLCache.expire. clear Hlen.
    induction c as [|x c IH]; [constructor|].
    inversion Hnd as [|? ? Hnin Hnd']; subst. cbn [filter].
    destruct (Qltb time (TTLCache.expires x)); [|auto].
    cbn [map]. constructor; [|auto].
    intros Hin. apply Hnin. apply in_map_iff in Hin.
    destruct Hin as (y & Hy & Hin). apply filter_In in Hin.
    apply in_map_iff. exists y. tauto. }
  assert (Hlen1 : (List.length (TTLCache.expire c time)
                   <= List.length c)%nat) by apply filter_length_le.
  destruct (TTLCache.lookup (TTLCache.expire c time) k) as [l0|] eqn:Hl.
  - split.
    + apply (put_last_nodup _ l Hnd1).
    + rewrite length_app. cbn [List.length].
      pose proof (remove_length_found _ _ _ Hl). lia.
  - destruct (evict_suffix _cache_maxsize (TTLCache.expire c time))
      as [dropped Hd].
    split.
    + apply (put_last_nodup _ l).
      rewrite Hd, map_app in Hnd1. now apply NoDup_app_remove_l in Hnd1.
    + rewrite length_app. cbn [List.length].
      pose proof (remove_length
                    (TTLCache.evict _cache_maxsize (TTLCache.expire c time)) k).
      pose proof (evict_length _cache_maxsize (TTLCache.expire c time)).
      unfold _cache_maxsize in *. lia.
Qed.

(** Calls of a cache-wrapped operation keep the module-level cache in
    order: it never holds two entries under one key, and never more than
    1000 entries. *)
Theorem cache_result_keeps_the_cache_within_bounds T op args kwargs w :
  cache_within_bounds (_cache w) ->
  cache_within_bounds
    (_cache (snd (call (cache_result T (operation op)) args kwargs w))).
Proof.
  intros Hok.
  destruct (TTLCache.contains (_cache w)
              (cache_key (operation op) args kwargs) (now w)) eqn:Hc.
  - unfold TTLCache.contains in Hc.
    destruct (TTLCache.lookup (_cache w)
                (cache_key (operation op) args kwargs)) as [l|] eqn:Hl;
      [|discriminate].
    unfold cache_result. cbn [call].
    unfold bind at 1, cache_contains, TTLCache.contains. rewrite Hl, Hc.
    unfold bind, logger, emit, cache_getitem, TTLCache.getitem.
    cbn [_cache now]. rewrite Hl, Hc. cbn [fst snd set_cache _cache].
    destruct Hok as [Hnd Hlen]. split.
    + rewrite <- (lookup_key _ _ _ Hl). now apply put_last_nodup.
    + rewrite length_app. cbn [List.length].
      pose proof (remove_length_found _ _ _ Hl). lia.
  - rewrite (cache_result_miss T _ _ _ _ Hc). cbn [operation call].
    destruct (fst (fst (op_body op args kwargs (state w) (now w))))
      as [v|e]; [|exact Hok].
    cbn [snd logger emit _cache cache_setitem set_cache now].
    now apply setitem_within_bounds.
Qed.

End CacheMore.

(** ** The classes of exceptions.py *)

(** Every class of the file but its root is under exactly one category,
    and with it under the root and under [Exception]; none is a
    [ValueError], a [TypeError] or a [KeyError], the classes of the
    errors that the decorators and the cache raise themselves. *)
Theorem every_kind_has_one_category (c : ExcClass) :
  In c declared -> c <> ICTTradingError ->
  (exists category,
     In category categories
     /\ issubclass c category = true
     /\ forall other, In other categories -> issubclass c other = true ->
                      other = category)
  /\ issubclass c ICTTradingError = true
  /\ issubclass c Exception = true
  /\ issubclass c ValueError = false
  /\ issubclass c TypeError = false
  /\ issubclass c KeyError = false.
Proof.
  intros Hin Hroot.
  assert (Hcases :
    forallb (fun c =>
      ExcClass_beq c ICTTradingError
      || (Nat.eqb (List.length (filter (issubclass c) categories)) 1
          && issubclass c ICTTradingError && issubclass c Exception
          && negb (issubclass c ValueError) && negb (issubclass c TypeError)
          && negb (issubclass c KeyError))) declared = true) by reflexivity.
  pose proof (proj1 (forallb_forall _ _) Hcases c Hin) as Hc. cbv beta in Hc.
  destruct (ExcClass_beq c ICTTradingError) eqn:Hbeq.
  { apply internal_ExcClass_dec_bl in Hbeq. contradiction. }
  cbn [orb] in Hc.
  repeat (apply andb_true_iff in Hc; destruct Hc as [Hc ?]).
  repeat match goal with
         | Hn : negb _ = true |- _ => apply negb_true_iff in Hn
         end.
  repeat split; auto.
  apply Nat.eqb_eq in Hc.
  destruct (filter (issubclass c) categories) as [|category rest] eqn:Hf;
    [discriminate|].
  destruct rest; [|discriminate].
  assert (Hcat : In category (filter (issubclass c) categories))
    by (rewrite Hf; now left).
  apply filter_In in Hcat. destruct Hcat as [Hcat Hsub].
  exists category. repeat split; auto.
  intros other Hother Hsub'.
  assert (Ho : In other (filter (issubclass c) categories))
    by (apply filter_In; auto).
  rewrite Hf in Ho. destruct Ho as [Ho|[]]. now symmetry.
Qed.

(** ** get_logger *)

Section GetLoggerFacts.
Import Logging.
Variable LOG_LEVEL : string.
Variable named_level : string -> Result Z.
Implicit Types (reg : Registry) (name key : string).

Lemma lookup_update reg key other (f : Logger -> Logger) :
  lookup (update reg key f) other
  = if String.eqb other key then option_map f (lookup reg other)
    else lookup reg other.
Proof.
  unfold lookup, update.
  induction reg as [|[k l] reg IH]; cbn [map find fst snd].
  - now destruct (String.eqb other key).
  - destruct (String.eqb_spec k key) as [->|Hk]; cbn [fst snd].
    + destruct (String.eqb_spec key other) as [<-|Hne].
      * now rewrite String.eqb_refl.
      * rewrite IH.
        now rewrite (proj2 (String.eqb_neq other key)
                           (fun E => Hne (eq_sym E))).
    + destruct (String.eqb_spec k other) as [<-|Hne].
      * now rewrite (proj2 (String.eqb_neq k key) Hk).
      * exact IH.
Qed.

Lemma find_in_app {A : Type} (p : A -> bool) (l1 l2 : list A) :
  find p (l1 ++ l2)
  = match find p l1 with
    | Some x => Some x
    | None => find p l2
    end.
Proof.
  induction l1 as [|x l1 IH]; cbn [app find]; [reflexivity|].
  now destruct (p x).
Qed.

Lemma fst_getLogger name reg : fst (getLogger name reg) = canonical name.
Proof. unfold getLogger. now destruct (lookup reg (canonical name)). Qed.

Lemma lookup_getLogger name reg :
  exists l, lookup (snd (getLogger name reg)) (canonical name) = Some l
            /\ handlers l = handlers_of reg (canonical name)
            /\ level l = level_of reg (canonical name).
Proof.
  unfold getLogger, handlers_of, level_of.
  destruct (lookup reg (canonical name)) as [l|] eqn:Hl; cbn [snd].
  - exists l. auto.
  - exists {| handlers := []; level := 0 |}. split; [|auto].
    unfold lookup in *. rewrite find_in_app.
    destruct (find _ reg); [discriminate|].
    cbn. now rewrite String.eqb_refl.
Qed.

Lemma lookup_getLogger_other name reg other :
  other <> canonical name ->
  lookup (snd (getLogger name reg)) other = lookup reg other.
Proof.
  intros Hne. unfold getLogger.
  destruct (lookup reg (canonical name)); cbn [snd]; [reflexivity|].
  unfold lookup. rewrite find_in_app.
  destruct (find _ reg); [reflexivity|].
  cbn. now rewrite (proj2 (String.eqb_neq (canonical name) other)
                          (fun E => Hne (eq_sym E))).
Qed.

(** A call of [get_logger] that finds the logger with a handler changes
    nothing and gives the logger. *)
Lemma get_logger_configured name reg (l : Logger) h hs :
  lookup reg (canonical name) = Some l -> handlers l = h :: hs ->
  get_logger LOG_LEVEL named_level name reg = (Return (canonical name), reg).
Proof.
  intros Hl Hh. unfold get_logger, getLogger. rewrite Hl. cbn [fst snd].
  unfold handlers_of. now rewrite Hl, Hh.
Qed.

(** What a call of [get_logger] that finds the logger without a handler
    has done to it before it comes to the level. *)
Lemma lookup_addHandler name reg :
  handlers_of reg (canonical name) = [] ->
  lookup (addHandler (canonical name) {| handler_format := log_format |}
            (snd (getLogger name reg))) (canonical name)
  = Some {| handlers := [{| handler_format := log_format |}];
            level := level_of reg (canonical name) |}.
Proof.
  intros Hnone. destruct (lookup_getLogger name reg) as (l & Hl & Hh & Hlv).
  unfold addHandler. rewrite lookup_update, String.eqb_refl, Hl.
  cbn [option_map]. now rewrite Hh, Hnone, Hlv.
Qed.

(** The two ways of a call, by the handlers of the logger before it. *)
Lemma get_logger_first name reg :
  get_logger LOG_LEVEL named_level name reg
  = match handlers_of reg (canonical name) with
    | [] =>
        match named_level LOG_LEVEL with
        | Return lvl =>
            (Return (canonical name),
             setLevel (canonical name) lvl
               (addHandler (canonical name)
                  {| handler_format := log_format |}
                  (snd (getLogger name reg))))
        | Raised e =>
            (Raised e,
             addHandler (canonical name) {| handler_format := log_format |}
               (snd (getLogger name reg)))
        end
    | _ :: _ => (Return (canonical name), snd (getLogger name reg))
    end.
Proof.
  destruct (lookup_getLogger name reg) as (l & Hl & Hh & Hlv).
  unfold get_logger. cbn zeta. rewrite fst_getLogger.
  replace (handlers_of (snd (getLogger name reg)) (canonical name))
    with (handlers_of reg (canonical name))
    by (unfold handlers_of at 2; now rewrite Hl).
  reflexivity.
Qed.

(** With a level that the [logging] module knows, [get_logger] gives the
    logger of the name; a logger without a handler gets one handler, with
    the format of the function, and the level of the settings; a logger
    with a handler is left as it is, its level too; a second call for the
    name changes nothing, so that no logger gets a second handler; and no
    other logger is touched. *)
Theorem get_logger_configures_a_logger_once name reg (lvl : Z) :
  named_level LOG_LEVEL = Return lvl ->
  let first := get_logger LOG_LEVEL named_level name reg in
  let key := canonical name in
  fst first = Return key
  /\ handlers_of (snd first) key
     = match handlers_of reg key with
       | [] => [{| handler_format := log_format |}]
       | hs => hs
       end
  /\ level_of (snd first) key
     = match handlers_of reg key with
       | [] => lvl
       | _ => level_of reg key
       end
  /\ get_logger LOG_LEVEL named_level name (snd first) = (Return key, snd first)
  /\ forall other, other <> key -> lookup (snd first) other = lookup reg other.
Proof.
  intros Hlvl. cbn zeta.
  destruct (lookup_getLogger name reg) as (l & Hl & Hh & Hlv).
  rewrite (get_logger_first name reg).
  destruct (handlers_of reg (canonical name)) as [|h hs] eqn:Hnone.
  - rewrite Hlvl. cbn [fst snd].
    assert (Hlook :
      lookup (setLevel (canonical name) lvl
                (addHandler (canonical name)
                   {| handler_format := log_format |}
                   (snd (getLogger name reg)))) (canonical name)
      = Some {| handlers := [{| handler_format := log_format |}];
                level := lvl |}).
    { unfold setLevel. rewrite lookup_update, String.eqb_refl.
      now rewrite (lookup_addHandler name reg Hnone). }
    split; [reflexivity|].
    split; [unfold handlers_of; now rewrite Hlook|].
    split; [unfold level_of; now rewrite Hlook|].
    split; [now apply (get_logger_configured name _ _ _ [] Hlook eq_refl)|].
    intros other Hne. unfold setLevel, addHandler.
    rewrite !lookup_update, (proj2 (String.eqb_neq other (canonical name)) Hne).
    now apply lookup_getLogger_other.
  - cbn [fst snd].
    split; [reflexivity|].
    split; [unfold handlers_of; now rewrite Hl, Hh|].
    split; [unfold level_of at 1; now rewrite Hl, Hlv|].
    split; [apply (get_logger_configured name _ l h hs Hl); congruence|].
    intros other Hne. now apply lookup_getLogger_other.
Qed.

(** With a level that the [logging] module does not know, the first call
    of [get_logger] for a logger without a handler raises, after it has
    added the handler and before it has set a level; the next call for
    the name finds the handler and gives the logger without a word, at
    the level it had. *)
Theorem get_logger_raises_once_for_an_unknown_level name reg (e : Exc) :
  named_level LOG_LEVEL = Raised e ->
  handlers_of reg (canonical name) = [] ->
  let first := get_logger LOG_LEVEL named_level name reg in
  let key := canonical name in
  fst first = Raised e
  /\ handlers_of (snd first) key = [{| handler_format := log_format |}]
  /\ level_of (snd first) key = level_of reg key
  /\ get_logger LOG_LEVEL named_level name (snd first)
     = (Return key, snd first).
Proof.
  intros Hlvl Hnone. cbn zeta.
  destruct (lookup_getLogger name reg) as (l & Hl & Hh & Hlv).
  pose proof (lookup_addHandler name reg Hnone) as Hlook.
  rewrite (get_logger_first name reg), Hnone, Hlvl. cbn [fst snd].
  split; [reflexivity|].
  split; [unfold handlers_of; now rewrite Hlook|].
  split; [unfold level_of at 1; now rewrite Hlook|].
  now apply (get_logger_configured name _ _ _ [] Hlook eq_refl).
Qed.

End GetLoggerFacts.

(** ** Entries under other keys *)

Section CacheRoom.
Context {Value State : Type} `{Runtime Value}.
Implicit Types (w : World Value State) (op : Operation Value State).
Implicit Types (c : TTLCache.t Value) (l : TTLCache.Link Value).

Lemma find_filter_keep {A : Type} (p q : A -> bool) (xs : list A) (x : A) :
  find p xs = Some x -> q x = true -> find p (filter q xs) = Some x.
Proof.
  induction xs as [|y xs IH]; cbn [find filter]; [discriminate|].
  destruct (p y) eqn:Hp.
  - intros Hx Hq. injection Hx as ->. rewrite Hq. cbn [find]. now rewrite Hp.
  - intros Hx Hq. destruct (q y); [cbn [find]; rewrite Hp|]; auto.
Qed.

Lemma evict_room (maxsize : Z) c :
  (Z.of_nat (List.length c) + 1 <= maxsize)%Z -> TTLCache.evict maxsize c = c.
Proof.
  destruct c as [|x c]; [reflexivity|]. cbn [TTLCache.evict]. intros Hroom.
  now destruct (Z.ltb_spec maxsize (Z.of_nat (List.length (x :: c)) + 1));
    [lia|].
Qed.

Lemma lookup_put_other c k k' l (new : TTLCache.Link Value) :
  TTLCache.lookup c k = Some l -> k' <> k ->
  TTLCache.lookup (TTLCache.remove c k' ++ [new]) k = Some l.
Proof.
  intros Hl Hne. unfold TTLCache.lookup, TTLCache.remove in *.
  rewrite find_in_app.
  rewrite (find_filter_keep _ (fun l0 => negb (TTLCache.has_key k' l0)) _ l Hl);
    [reflexivity|].
  apply find_some in Hl. destruct Hl as [_ Hk].
  unfold TTLCache.has_key in *. apply String.eqb_eq in Hk. rewrite Hk.
  now rewrite (proj2 (String.eqb_neq k k') (fun E => Hne (eq_sym E))).
Qed.

Lemma setitem_keeps_other c k k' l (v : Value) (time : Q) :
  TTLCache.lookup c k = Some l ->
  Qltb time (TTLCache.expires l) = true ->
  k' <> k ->
  (Z.of_nat (List.length c) < _cache_maxsize)%Z ->
  TTLCache.lookup
    (snd (TTLCache.setitem _cache_maxsize _cache_ttl c k' v time)) k
  = Some l.
Proof.
  intros Hl Hlive Hne Hroom. unfold TTLCache.setitem.
  change (_cache_maxsize <? 1)%Z with false. cbn [snd].
  assert (Hl1 : TTLCache.lookup (TTLCache.expire c time) k = Some l).
  { unfold TTLCache.lookup, TTLCache.expire in *.
    now apply find_filter_keep. }
  assert (Hlen : (List.length (TTLCache.expire c time)
                  <= List.length c)%nat) by apply filter_length_le.
  rewrite evict_room by lia.
  destruct (TTLCache.lookup (TTLCache.expire c time) k');
    now apply lookup_put_other.
Qed.

(** While the cache has room, a call with other arguments leaves an
    entry that is still live where it is: the entry is found after the
    call as before, with its value and its expiry. *)
Theorem cache_result_keeps_the_other_entries
    T op args kwargs w (k : string) l :
  TTLCache.lookup (_cache w) k = Some l ->
  Qltb (now w + snd (op_body op args kwargs (state w) (now w)))
       (TTLCache.expires l) = true ->
  cache_key (operation op) args kwargs <> k ->
  (Z.of_nat (List.length (_cache w)) < _cache_maxsize)%Z ->
  TTLCache.lookup
    (_cache (snd (call (cache_result T (operation op)) args kwargs w))) k
  = Some l.
Proof.
  intros Hl Hlive Hne Hroom.
  destruct (TTLCache.contains (_cache w)
              (cache_key (operation op) args kwargs) (now w)) eqn:Hc.
  - unfold TTLCache.contains in Hc.
    destruct (TTLCache.lookup (_cache w)
                (cache_key (operation op) args kwargs)) as [l'|] eqn:Hl';
      [|discriminate].
    unfold cache_result. cbn [call].
    unfold bind at 1, cache_contains, TTLCache.contains. rewrite Hl', Hc.
    unfold bind, logger, emit, cache_getitem, TTLCache.getitem.
    cbn [_cache now]. rewrite Hl', Hc. cbn [fst snd set_cache _cache].
    now apply lookup_put_other.
  - rewrite (cache_result_miss T _ _ _ _ Hc). cbn [operation call].
    destruct (fst (fst (op_body op args kwargs (state w) (now w))))
      as [v|e]; [|exact Hl].
    cbn [snd logger emit _cache cache_setitem set_cache now].
    now apply setitem_keeps_other.
Qed.

End CacheRoom.

(** ** retry and retry_async side by side *)

Section RetryTwins.
Context {Value State : Type}.
Implicit Types (w : World Value State) (op : Operation Value State).

Lemma asyncio_sleep_positive (c : Q) w :
  (0 < c)%Q ->
  asyncio_sleep c w = emit (EvAsyncSleep c) (advance c w).
Proof.
  intros Hc. unfold asyncio_sleep. now rewrite (proj2 (Qltb_lt 0 c) Hc).
Qed.

Lemma retry_loop_twins op args kwargs (n : Z) (b : Q) :
  (1 <= b)%Q ->
  forall (attempts : list Z) (c : Q) (le : option Exc) w wa,
    (0 < c)%Q ->
    now w = now wa -> _cache w = _cache wa -> state w = state wa ->
    map as_blocking (events w) = map as_blocking (events wa) ->
    same_but_for_the_waits
      (retry_loop time_sleep (operation op) args kwargs n b attempts c le w)
      (retry_loop asyncio_sleep (operation op) args kwargs n b attempts c le
         wa).
Proof.
  intros Hb. induction attempts as [|attempt rest IH];
    intros c le w wa Hc Hnow Hcache Hstate Hevents.
  - cbn [retry_loop]. destruct le; repeat split; auto.
  - rewrite !retry_loop_cons. cbn [operation call func_name].
    rewrite <- Hnow, <- Hstate, <- Hcache.
    destruct (fst (fst (op_body op args kwargs (state w) (now w))))
      as [v|e].
    + repeat split. cbn [fst snd now _cache state events].
      now rewrite !map_app, Hevents.
    + destruct (isinstance e Exception).
      * destruct (attempt <? n - 1)%Z.
        -- unfold bind at 1 3, logger, emit. cbn [now _cache events state].
           unfold bind at 1 2.
           rewrite (time_sleep_ok c _ (Qlt_le_weak _ _ Hc)).
           rewrite (asyncio_sleep_positive c _ Hc).
           unfold emit, advance. cbn [now _cache events state].
           apply IH; cbn [now _cache events state]; auto.
           ++ nra.
           ++ rewrite !map_app, Hevents. reflexivity.
        -- unfold bind, logger, emit. cbn [now _cache events state].
           apply IH; cbn [now _cache events state]; auto.
           rewrite !map_app, Hevents. reflexivity.
      * repeat split. cbn [fst snd now _cache state events].
        now rewrite !map_app, Hevents.
Qed.

(** With a delay above zero (and a factor of one at least), [retry] and
    [retry_async] around an operation do the same from the same world:
    they give the same result or error, leave the same clock, cache and
    state, and the same events in the same order, the waits of the one
    where the other has its waits, of the same lengths. *)
Theorem retry_and_retry_async_agree op args kwargs (n : Z) (d b : Q) w :
  (0 < d)%Q -> (1 <= b)%Q ->
  let run := call (retry n d b (operation op)) args kwargs w in
  let run_async := call (retry_async n d b (operation op)) args kwargs w in
  fst run = fst run_async
  /\ now (snd run) = now (snd run_async)
  /\ _cache (snd run) = _cache (snd run_async)
  /\ state (snd run) = state (snd run_async)
  /\ map as_blocking (events (snd run))
     = map as_blocking (events (snd run_async)).
Proof.
  intros Hd Hb. unfold retry, retry_async. cbn [call].
  now apply (retry_loop_twins op args kwargs n b Hb).
Qed.

End RetryTwins.

(** * More runs on the sample runtime *)

Import MoreSamples.

Lemma retry_stops_at_the_first_success_witness :
  exists w' tr earlier r,
    call (retry 5 1 2 (operation flaky)) [] [] start = (r, w')
    /\ events w' = events start ++ tr
    /\ call_outcomes tr = earlier ++ [r]
    /\ Forall failed_attempt earlier
    /\ (Z.of_nat (List.length earlier) < 5)%Z
    /\ schedule tr = backoff_schedule 1 2 (List.length earlier)
    /\ (failed_attempt r -> Z.of_nat (List.length earlier) = (5 - 1)%Z).
Proof.
  apply retry_stops_at_the_first_success; [lia | lra | lra].
Defined.

(** The run itself: two failures, two waits, and the result of the third
    invocation. *)
Lemma retry_over_flaky_run :
  fst (call (retry 5 1 2 (operation flaky)) [] [] start) = Return (PyInt 2)
  /\ schedule (events (snd (call (retry 5 1 2 (operation flaky)) [] [] start)))
     = [None; Some 1%Q; None; Some (1 * 2)%Q; None].
Proof. split; reflexivity. Qed.

Lemma retry_negative_delay_witness :
  (exists e w',
     call (retry 3 (-1) 2 (operation failing)) [] [] start
     = (Raised {| exc_class := ValueError; exc_args := NegativeSleep |}, w')
     /\ events w'
        = events start ++ [EvCall (op_name failing) [] [] (Raised e);
                           EvLog WARNING
                             (AttemptFailed (op_name failing) 1 e (-1))])
  /\ backoff_run failing [] [] 3 (-1) 2 start
       (call (retry_async 3 (-1) 2 (operation failing)) [] [] start).
Proof.
  apply retry_negative_delay; [lia | lra | exact failing_always_fails].
Defined.

Lemma retry_without_attempts_witness :
  call (retry (-2) 1 2 (operation counting)) [] [] start
  = (Raised {| exc_class := TypeError; exc_args := NotAnException |}, start)
  /\ call (retry_async (-2) 1 2 (operation counting)) [] [] start
     = (Raised {| exc_class := TypeError; exc_args := NotAnException |}, start).
Proof.
  apply retry_without_attempts. lia.
Defined.


Lemma validate_data_lets_valid_calls_through_witness :
  call (validate_data (Some ["A"; "C"]) 5 (operation counting))
    [PyInt 7; wide_table] [] start
  = call (operation counting) [PyInt 7; wide_table] [] start.
Proof.
  apply validate_data_lets_valid_calls_through.
  intros df Hloc. injection Hloc as <-. split; [cbn; lia|].
  intros cols col Hcols Hin. injection Hcols as <-.
  destruct Hin as [<-|[<-|[]]]; reflexivity.
Defined.

Lemma validate_data_checks_the_first_table_only_witness :
  call (validate_data (Some ["A"; "C"]) 5 (operation counting))
    ([PyInt 7] ++ wide_table :: [table]) [("df", table)] start
  = call (operation counting)
      ([PyInt 7] ++ wide_table :: [table]) [("df", table)] start
  /\ call (validate_data (Some ["A"; "C"]) 5 (operation counting))
       [PyInt 7] ([("n", PyInt 1)] ++ ("df", wide_table) :: [("old", table)])
       start
     = call (operation counting)
         [PyInt 7] ([("n", PyInt 1)] ++ ("df", wide_table) :: [("old", table)])
         start.
Proof.
  apply (validate_data_checks_the_first_table_only (operation counting)
           (Some ["A"; "C"]) 5 [PyInt 7] [table] wide_table
           [("df", table)] [("n", PyInt 1)] [("old", table)] "df"
           {| df_len := 5; df_columns := ["A"; "B"; "C"] |} start).
  - repeat constructor.
  - reflexivity.
  - cbn. lia.
  - intros cols col Hcols Hin. injection Hcols as <-.
    destruct Hin as [<-|[<-|[]]]; reflexivity.
  - repeat constructor.
Defined.

Lemma cache_entry_lives_for_the_ttl_of_the_store_witness :
  let wrapped := cache_result 10 (operation counting) in
  let w2 := advance 20 (snd (call wrapped [PyInt 1] [] start)) in
  ((now w2 < now start
             + snd (op_body counting [PyInt 1] [] (state start) (now start))
             + _cache_ttl)%Q ->
   exists w3,
     call wrapped [PyInt 1] [] w2 = (Return (PyInt 0), w3)
     /\ events w3 = events w2 ++ [EvLog DEBUG (CacheHit (op_name counting))])
  /\ ((now start
       + snd (op_body counting [PyInt 1] [] (state start) (now start))
       + _cache_ttl <= now w2)%Q ->
      exists tr,
        fst (call wrapped [PyInt 1] [] w2)
        = fst (fst (op_body counting [PyInt 1] [] (state w2) (now w2)))
        /\ events (snd (call wrapped [PyInt 1] [] w2))
           = events w2
             ++ EvCall (op_name counting) [PyInt 1] []
                  (fst (fst (op_body counting [PyInt 1] [] (state w2) (now w2))))
                :: tr).
Proof.
  apply (cache_entry_lives_for_the_ttl_of_the_store 10 counting [PyInt 1] []
           start
           (advance 20 (snd (call (cache_result 10 (operation counting))
                               [PyInt 1] [] start)))
           (PyInt 0)); reflexivity.
Defined.

(** The same pair of calls, the second one 300 seconds after the first
    has returned: the operation runs again. *)
Lemma cache_entry_expired_run :
  let wrapped := cache_result 10 (operation counting) in
  let w2 := advance 300 (snd (call wrapped [PyInt 1] [] start)) in
  fst (call wrapped [PyInt 1] [] w2) = Return (PyInt 1)
  /\ List.length (call_outcomes (events (snd (call wrapped [PyInt 1] [] w2))))
     = 2%nat.
Proof. split; reflexivity. Qed.

Lemma cache_hit_does_not_renew_the_entry_witness :
  let wrapped := cache_result 10 (operation counting) in
  let w2 := advance 20 (snd (call wrapped [PyInt 1] [] start)) in
  let l := {| TTLCache.key := cache_key (operation counting) [PyInt 1] [];
              TTLCache.value := PyInt 0;
              TTLCache.expires := (0 + 1 + 300)%Q |} in
  fst (call wrapped [PyInt 1] [] w2) = Return (TTLCache.value l)
  /\ TTLCache.lookup (_cache (snd (call wrapped [PyInt 1] [] w2)))
       (cache_key (operation counting) [PyInt 1] [])
     = Some l.
Proof.
  apply (cache_hit_does_not_renew_the_entry 10 (operation counting)
           [PyInt 1] []
           (advance 20 (snd (call (cache_result 10 (operation counting))
                               [PyInt 1] [] start))));
    reflexivity.
Defined.

Lemma cache_result_keeps_the_cache_within_bounds_witness :
  cache_within_bounds
    (_cache (snd (call (cache_result 10 (operation counting))
                    [PyInt 1] [] start))).
Proof.
  apply cache_result_keeps_the_cache_within_bounds.
  split; [constructor|cbn; unfold _cache_maxsize; lia].
Defined.

Lemma every_kind_has_one_category_witness :
  (exists category,
     In category categories
     /\ issubclass DataValidationError category = true
     /\ forall other, In other categories ->
                      issubclass DataValidationError other = true ->
                      other = category)
  /\ issubclass DataValidationError ICTTradingError = true
  /\ issubclass DataValidationError Exception = true
  /\ issubclass DataValidationError ValueError = false
  /\ issubclass DataValidationError TypeError = false
  /\ issubclass DataValidationError KeyError = false.
Proof.
  apply every_kind_has_one_category; [cbn; tauto | discriminate].
Defined.

Lemma get_logger_configures_a_logger_once_witness :
  let first :=
    Logging.get_logger "INFO" Logging.sample_named_level "trading"
      Logging.initial in
  let key := Logging.canonical "trading" in
  fst first = Return key
  /\ Logging.handlers_of (snd first) key
     = match Logging.handlers_of Logging.initial key with
       | [] => [{| Logging.handler_format := Logging.log_format |}]
       | hs => hs
       end
  /\ Logging.level_of (snd first) key
     = match Logging.handlers_of Logging.initial key with
       | [] => 20%Z
       | _ => Logging.level_of Logging.initial key
       end
  /\ Logging.get_logger "INFO" Logging.sample_named_level "trading" (snd first)
     = (Return key, snd first)
  /\ forall other, other <> key ->
       Logging.lookup (snd first) other = Logging.lookup Logging.initial other.
Proof.
  apply (get_logger_configures_a_logger_once "INFO"
           Logging.sample_named_level "trading" Logging.initial 20).
  reflexivity.
Defined.

Lemma get_logger_raises_once_for_an_unknown_level_witness :
  let first :=
    Logging.get_logger "VERBOSE" Logging.sample_named_level "trading"
      Logging.initial in
  let key := Logging.canonical "trading" in
  fst first = Raised {| exc_class := Exception; exc_args := Text "VERBOSE" |}
  /\ Logging.handlers_of (snd first) key
     = [{| Logging.handler_format := Logging.log_format |}]
  /\ Logging.level_of (snd first) key = Logging.level_of Logging.initial key
  /\ Logging.get_logger "VERBOSE" Logging.sample_named_level "trading"
       (snd first)
     = (Return key, snd first).
Proof.
  apply (get_logger_raises_once_for_an_unknown_level "VERBOSE"
           Logging.sample_named_level "trading" Logging.initial
           {| exc_class := Exception; exc_args := Text "VERBOSE" |});
    reflexivity.
Defined.

Lemma retry_and_retry_async_agree_witness :
  let run := call (retry 5 (1 # 2) 2 (operation flaky)) [] [] start in
  let run_async :=
    call (retry_async 5 (1 # 2) 2 (operation flaky)) [] [] start in
  fst run = fst run_async
  /\ now (snd run) = now (snd run_async)
  /\ _cache (snd run) = _cache (snd run_async)
  /\ state (snd run) = state (snd run_async)
  /\ map as_blocking (events (snd run))
     = map as_blocking (events (snd run_async)).
Proof.
  apply (retry_and_retry_async_agree flaky [] [] 5 (1 # 2) 2 start); lra.
Defined.

Lemma cache_result_keeps_the_other_entries_witness :
  let wrapped := cache_result 10 (operation counting) in
  let w1 := advance 20 (snd (call wrapped [PyInt 1] [] start)) in
  TTLCache.lookup (_cache (snd (call wrapped [PyInt 2] [] w1)))
    (cache_key (operation counting) [PyInt 1] [])
  = Some {| TTLCache.key := cache_key (operation counting) [PyInt 1] [];
            TTLCache.value := PyInt 0;
            TTLCache.expires := (0 + 1 + 300)%Q |}.
Proof.
  apply (cache_result_keeps_the_other_entries 10 counting [PyInt 2] []
           (advance 20 (snd (call (cache_result 10 (operation counting))
                               [PyInt 1] [] start)))).
  - reflexivity.
  - reflexivity.
  - discriminate.
  - cbn. unfold _cache_maxsize. lia.
Defined.

Lemma retry_reraises_a_recorded_error_witness :
  (exists res w' tr earlier last,
     call (retry 2 1 2 (operation failing)) [] [] start = (res, w')
     /\ events w' = events start ++ tr
     /\ call_outcomes tr = earlier ++ [last]
     /\ Forall failed_attempt earlier
     /\ (res = last
         \/ (res = Raised {| exc_class := ValueError;
                             exc_args := NegativeSleep |}
             /\ failed_attempt last))
     /\ ((0 <= 1)%Q -> (1 <= 2)%Q -> res = last))
  /\ (forall last_exception : option Exc,
        retry_loop time_sleep (operation failing) [] [] 2 2 (range 2) 1
          last_exception start
        = call (retry 2 1 2 (operation failing)) [] [] start)
  /\ call (retry 0 1 2 (operation failing)) [] [] start
     = (Raised {| exc_class := TypeError; exc_args := NotAnException |}, start).
Proof.
  apply (retry_reraises_a_recorded_error failing [] [] 2 1 2 start). lia.
Defined.

(** The run of that call: two invocations fail, and the error raised at
    the end is the error of the second. *)
Lemma retry_over_failing_run :
  fst (call (retry 2 1 2 (operation failing)) [] [] start) = Raised boom
  /\ call_outcomes
       (events (snd (call (retry 2 1 2 (operation failing)) [] [] start)))
     = [Raised boom; Raised boom].
Proof. split; reflexivity. Qed.

